(** * Sync2Bucket: the UI state machine and the access-control core

    A shallow embedding of the TypeScript front end (lib/types.ts,
    lib/store.ts, lib/tauri.ts, components/KeyEntry.tsx,
    components/SyncPanel.tsx, app/page.tsx) together with a model of the
    command handlers the front end talks to (license crypto, admin policy,
    expiry monitor, cancel signal).

    Conventions.
    - A TypeScript [string] is a Rocq [string]: the bytes of its UTF-8
      encoding.
    - [T | null] is [option T].
    - A JavaScript [number] holding a count is an [N]; a time in seconds
      is a [Q], the exact value of the double that holds it.
    - An event handler is the list of effects it performs, in order; the
      component state after the handler is the fold of these effects. *)

From Stdlib Require Import ZArith NArith QArith Lia List Bool Ascii String.
From Stdlib Require Import Decimal DecimalString DecimalZ.
From Stdlib.Strings Require Import Byte.
From Stdlib.Floats Require Import SpecFloat.
From stdpp Require Import base decidable option list strings gmap.

Local Open Scope string_scope.
Local Open Scope list_scope.

(* ===================================================================== *)
(** * Part I: definitions                                                 *)
(* ===================================================================== *)

(** ** lib/types.ts *)

Module Types.

(** [interface KeyPayload]: [created] is a JavaScript number. *)
Record KeyPayload := mkKeyPayload {
  uid : string;
  name : string;
  created : Q
}.

Record ValidationResult := mkValidationResult {
  valid : bool;
  user_name : option string;
  error : option string
}.

Inductive SyncDirection := LocalToCloud | CloudToLocal.

(** [type SyncStatus]: five plain tags and one object [{ Error: string }]. *)
Inductive SyncStatus :=
| Idle
| Scanning
| Syncing
| Paused
| Completed
| Error (message : string).

Record SyncProgress := mkSyncProgress {
  status : SyncStatus;
  direction : option SyncDirection;
  total_files : N;
  completed_files : N;
  total_bytes : N;
  transferred_bytes : N;
  current_file : option string;
  bytes_per_second : Q;
  eta_seconds : option N
}.

Record CloudFolder := mkCloudFolder {
  cf_name : string;
  cf_path : string;
  cf_total_size : N;
  cf_file_count : N
}.

Record CredentialsStatus := mkCredentialsStatus {
  cs_valid : bool;
  days_remaining : Z;
  expiry_date : string;
  warning : option string
}.

Inductive AppScreen := loading | key_entry | main.

Record AppState := mkAppState {
  screen : AppScreen;
  user : option KeyPayload;
  progress : option SyncProgress;
  cloudFolders : list CloudFolder;
  selectedSourceFolders : list string;
  selectedTargetFolder : option string;
  selectedCloudFolder : option string;
  app_error : option string
}.

End Types.
Import Types.

(** ** JavaScript truthiness of a nullable string

    [if (s)], [!s], [a && b] and [a || b] on a value of type
    [string | null] treat both [null] and the empty string as false. *)

Definition truthy (s : option string) : bool :=
  match s with
  | Some s => negb (String.eqb s "")
  | None => false
  end.

(** The string a truthy [string | null] holds. *)
Definition as_truthy (s : option string) : option string :=
  match s with
  | Some s => if String.eqb s "" then None else Some s
  | None => None
  end.

(** [a || d] where [a : string | null] and [d] is a string literal. *)
Definition or_default (a : option string) (d : string) : string :=
  match a with
  | Some s => if String.eqb s "" then d else s
  | None => d
  end.

(** ** lib/store.ts *)

Module Store.

Definition initialState : AppState :=
  {| screen := loading;
     user := None;
     progress := None;
     cloudFolders := [];
     selectedSourceFolders := [];
     selectedTargetFolder := None;
     selectedCloudFolder := None;
     app_error := None |}.

Definition setScreen (s : AppScreen) (st : AppState) : AppState :=
  {| screen := s; user := user st; progress := progress st;
     cloudFolders := cloudFolders st;
     selectedSourceFolders := selectedSourceFolders st;
     selectedTargetFolder := selectedTargetFolder st;
     selectedCloudFolder := selectedCloudFolder st;
     app_error := app_error st |}.

Definition setUser (u : option KeyPayload) (st : AppState) : AppState :=
  {| screen := screen st; user := u; progress := progress st;
     cloudFolders := cloudFolders st;
     selectedSourceFolders := selectedSourceFolders st;
     selectedTargetFolder := selectedTargetFolder st;
     selectedCloudFolder := selectedCloudFolder st;
     app_error := app_error st |}.

Definition setProgress (p : option SyncProgress) (st : AppState) : AppState :=
  {| screen := screen st; user := user st; progress := p;
     cloudFolders := cloudFolders st;
     selectedSourceFolders := selectedSourceFolders st;
     selectedTargetFolder := selectedTargetFolder st;
     selectedCloudFolder := selectedCloudFolder st;
     app_error := app_error st |}.

Definition setCloudFolders (fs : list CloudFolder) (st : AppState) : AppState :=
  {| screen := screen st; user := user st; progress := progress st;
     cloudFolders := fs;
     selectedSourceFolders := selectedSourceFolders st;
     selectedTargetFolder := selectedTargetFolder st;
     selectedCloudFolder := selectedCloudFolder st;
     app_error := app_error st |}.

Definition setSourceFolders (l : list string) (st : AppState) : AppState :=
  {| screen := screen st; user := user st; progress := progress st;
     cloudFolders := cloudFolders st;
     selectedSourceFolders := l;
     selectedTargetFolder := selectedTargetFolder st;
     selectedCloudFolder := selectedCloudFolder st;
     app_error := app_error st |}.

(** [state.selectedSourceFolders.includes(path) ? same : [...same, path]] *)
Definition addSourceFolder (path : string) (st : AppState) : AppState :=
  setSourceFolders
    (if bool_decide (path ∈ selectedSourceFolders st)
     then selectedSourceFolders st
     else selectedSourceFolders st ++ [path])
    st.

(** [state.selectedSourceFolders.filter((p) => p !== path)] *)
Definition removeSourceFolder (path : string) (st : AppState) : AppState :=
  setSourceFolders (filter (λ p, p ≠ path) (selectedSourceFolders st)) st.

Definition clearSourceFolders (st : AppState) : AppState :=
  setSourceFolders [] st.

Definition setTargetFolder (p : option string) (st : AppState) : AppState :=
  {| screen := screen st; user := user st; progress := progress st;
     cloudFolders := cloudFolders st;
     selectedSourceFolders := selectedSourceFolders st;
     selectedTargetFolder := p;
     selectedCloudFolder := selectedCloudFolder st;
     app_error := app_error st |}.

Definition setSelectedCloudFolder (p : option string) (st : AppState) : AppState :=
  {| screen := screen st; user := user st; progress := progress st;
     cloudFolders := cloudFolders st;
     selectedSourceFolders := selectedSourceFolders st;
     selectedTargetFolder := selectedTargetFolder st;
     selectedCloudFolder := p;
     app_error := app_error st |}.

Definition setError (e : option string) (st : AppState) : AppState :=
  {| screen := screen st; user := user st; progress := progress st;
     cloudFolders := cloudFolders st;
     selectedSourceFolders := selectedSourceFolders st;
     selectedTargetFolder := selectedTargetFolder st;
     selectedCloudFolder := selectedCloudFolder st;
     app_error := e |}.

(** [set(initialState)] merges every field of [initialState]. *)
Definition reset (_ : AppState) : AppState := initialState.

(** The actions of [interface AppStore], as data. *)
Inductive Action :=
| ASetScreen (s : AppScreen)
| ASetUser (u : option KeyPayload)
| ASetProgress (p : option SyncProgress)
| ASetCloudFolders (fs : list CloudFolder)
| AAddSourceFolder (path : string)
| ARemoveSourceFolder (path : string)
| AClearSourceFolders
| ASetTargetFolder (p : option string)
| ASetSelectedCloudFolder (p : option string)
| ASetError (e : option string)
| AReset.

Definition dispatch (a : Action) : AppState → AppState :=
  match a with
  | ASetScreen s => setScreen s
  | ASetUser u => setUser u
  | ASetProgress p => setProgress p
  | ASetCloudFolders fs => setCloudFolders fs
  | AAddSourceFolder p => addSourceFolder p
  | ARemoveSourceFolder p => removeSourceFolder p
  | AClearSourceFolders => clearSourceFolders
  | ASetTargetFolder p => setTargetFolder p
  | ASetSelectedCloudFolder p => setSelectedCloudFolder p
  | ASetError e => setError e
  | AReset => reset
  end.

(** The store after a sequence of actions, oldest first. *)
Definition run (acts : list Action) (st : AppState) : AppState :=
  foldl (λ s a, dispatch a s) st acts.

(** The states the store can be in: [initialState] and whatever an
    action makes of a reachable state. *)
Inductive reachable : AppState → Prop :=
| reach_init : reachable initialState
| reach_step a st : reachable st → reachable (dispatch a st).

End Store.

(** ** lib/tauri.ts: [getStatusText] *)

Module Tauri.

(** What [getStatusText] can be handed at run time: a string, or an
    object, of which only the own property [Error] is inspected. *)
Inductive StatusValue :=
| JsString (s : string)
| JsObject (error_prop : option string).

(** The wire form of a [SyncStatus]. *)
Definition to_js (s : SyncStatus) : StatusValue :=
  match s with
  | Idle => JsString "Idle"
  | Scanning => JsString "Scanning"
  | Syncing => JsString "Syncing"
  | Paused => JsString "Paused"
  | Completed => JsString "Completed"
  | Error m => JsObject (Some m)
  end.

Definition getStatusText_js (status : StatusValue) : string :=
  match status with
  | JsString s =>
      if String.eqb s "Idle" then "Ready"
      else if String.eqb s "Scanning" then "Scanning files..."
      else if String.eqb s "Syncing" then "Syncing..."
      else if String.eqb s "Paused" then "Paused"
      else if String.eqb s "Completed" then "Completed"
      else s
  | JsObject (Some m) => "Error: " +:+ m
  | JsObject None => "Unknown"
  end.

Definition getStatusText (status : SyncStatus) : string :=
  getStatusText_js (to_js status).

(** The commands [invoke] is called with, with their arguments. *)
Inductive Command :=
| check_stored_key
| validate_key (key : string)
| get_user_info
| logout
| start_upload (sourcePaths : list string)
| start_download (cloudFolder targetPath : string)
| pause_sync
| resume_sync
| cancel_sync
| get_sync_progress
| list_cloud_folders
| delete_all_files
| check_credentials_status.

(** How an awaited promise settles: it resolves with a value, or rejects
    with an [Error] object carrying a message, or with some other value. *)
Inductive Outcome (A : Type) :=
| Resolved (value : A)
| RejectedError (message : string)
| RejectedOther.
Arguments Resolved {A} value.
Arguments RejectedError {A} message.
Arguments RejectedOther {A}.

(** [err instanceof Error ? err.message : fallback] *)
Definition error_message {A} (o : Outcome A) (fallback : string) : string :=
  match o with
  | RejectedError m => m
  | _ => fallback
  end.

End Tauri.


(** ** components/KeyEntry.tsx *)

Module KeyEntry.
Import Tauri.

(** [String.prototype.trim] strips the code points of WhiteSpace and
    LineTerminator from both ends: U+0009 to U+000D, U+0020, U+00A0,
    U+1680, U+2000 to U+200A, U+2028, U+2029, U+202F, U+205F, U+3000 and
    U+FEFF.  A string being the bytes of its UTF-8 encoding, these are the
    following sequences of one, two and three bytes; no one of them is the
    start of another. *)
Definition is_space1 (c : ascii) : bool :=
  let n := N_of_ascii c in
  ((9 <=? n) && (n <=? 13) || (n =? 32))%N.

(** U+00A0 is [C2 A0]. *)
Definition is_space2 (c1 c2 : ascii) : bool :=
  ((N_of_ascii c1 =? 194) && (N_of_ascii c2 =? 160))%N.

(** U+1680 is [E1 9A 80]; U+2000 to U+200A are [E2 80 80] to [E2 80 8A];
    U+2028, U+2029 and U+202F are [E2 80 A8], [E2 80 A9] and [E2 80 AF];
    U+205F is [E2 81 9F]; U+3000 is [E3 80 80]; U+FEFF is [EF BB BF]. *)
Definition is_space3 (c1 c2 c3 : ascii) : bool :=
  let a := N_of_ascii c1 in
  let b := N_of_ascii c2 in
  let c := N_of_ascii c3 in
  ((a =? 225) && (b =? 154) && (c =? 128)
   || (a =? 226) && (b =? 128)
      && ((128 <=? c) && (c <=? 138) || (c =? 168) || (c =? 169) || (c =? 175))
   || (a =? 226) && (b =? 129) && (c =? 159)
   || (a =? 227) && (b =? 128) && (c =? 128)
   || (a =? 239) && (b =? 187) && (c =? 191))%N.

(** [s] is the encoding of one white space code point. *)
Definition is_space (s : string) : bool :=
  match s with
  | String c1 EmptyString => is_space1 c1
  | String c1 (String c2 EmptyString) => is_space2 c1 c2
  | String c1 (String c2 (String c3 EmptyString)) => is_space3 c1 c2 c3
  | _ => false
  end.

(** [s] starts with the encoding of a white space code point. *)
Definition starts_with_space (s : string) : bool :=
  match s with
  | String c1 r1 =>
      is_space1 c1
      || match r1 with
         | String c2 r2 =>
             is_space2 c1 c2
             || match r2 with
                | String c3 _ => is_space3 c1 c2 c3
                | EmptyString => false
                end
         | EmptyString => false
         end
  | EmptyString => false
  end.

Fixpoint trim_start (s : string) : string :=
  match s with
  | EmptyString => EmptyString
  | String c1 r1 =>
      if is_space1 c1 then trim_start r1
      else
        match r1 with
        | EmptyString => s
        | String c2 r2 =>
            if is_space2 c1 c2 then trim_start r2
            else
              match r2 with
              | EmptyString => s
              | String c3 r3 => if is_space3 c1 c2 c3 then trim_start r3 else s
              end
        end
  end.

(** What is left of [s] once its trailing white space is gone: the end of
    [s] trimmed, unless that with the first character in front is itself
    one white space code point. *)
Fixpoint trim_end (s : string) : string :=
  match s with
  | EmptyString => EmptyString
  | String c s' =>
      let r := String c (trim_end s') in
      if is_space r then EmptyString else r
  end.

Definition trim (s : string) : string := trim_end (trim_start s).

(** The component's [useState] cells. *)
Record State := mkState {
    key : string;
    isLoading : bool;
    error : option string
}.

(** What [handleSubmit] does, in order. *)
Inductive Effect :=
  | PreventDefault
  | SetError (e : option string)
  | SetIsLoading (b : bool)
  | Invoke (c : Command)
  | StoreAct (a : Store.Action).

(** The double nearest to a whole number (a [Date.now()] reading is a
    whole number of milliseconds, at most 8.64e15 in magnitude). *)
Definition double_of_Z (z : Z) : spec_float := binary_normalize 53 1024 z 0 false.

(** The rational a finite double stands for. *)
Definition Q_of_double (f : spec_float) : Q :=
  match f with
  | S754_finite s m e =>
      let v := if s then Zneg m else Zpos m in
      Qred match e with
           | Zneg k => Qmake v (2 ^ k)
           | _ => inject_Z (v * 2 ^ e)
           end
  | _ => 0
  end.

(** [Date.now() / 1000] for a clock that reads [now_ms] milliseconds: the
    IEEE 754 double division, round to nearest even. *)
Definition seconds_of_ms (now_ms : Z) : Q :=
  Q_of_double (SFdiv 53 1024 (double_of_Z now_ms) (double_of_Z 1000)).

(** [handleSubmit]: [validateKey] is how the [validate_key] command
    settles for a given key, [now_ms] is what [Date.now()] returns. *)
Definition handleSubmit (validateKey : string → Outcome ValidationResult)
      (now_ms : Z) (st : State) : list Effect :=
  PreventDefault ::
  if String.eqb (trim (key st)) "" then
    [SetError (Some "Please enter your sync key")]
  else
    [SetIsLoading true; SetError None; Invoke (validate_key (trim (key st)))]
    ++ match validateKey (trim (key st)) with
       | Resolved result =>
           match (if valid result then as_truthy (user_name result) else None) with
           | Some user_name =>
               [StoreAct (Store.ASetUser (Some {| uid := "";
                                                  name := user_name;
                                                  created := seconds_of_ms now_ms |}));
                StoreAct (Store.ASetScreen main)]
           | None =>
               [SetError (Some (or_default (Types.error result) "Invalid key"))]
           end
       | err => [SetError (Some (error_message err "Validation failed"))]
       end
    ++ [SetIsLoading false].

(** The user [handleSubmit] stores for a validated name. *)
Definition placeholder_user (now_ms : Z) (user_name : string) : KeyPayload :=
  {| uid := ""; name := user_name; created := seconds_of_ms now_ms |}.

(** The name [handleSubmit] goes on with after [validateKey] has settled:
    that of a result that is [valid] and whose [user_name] is truthy. *)
Definition accepted_name (validateKey : string → Outcome ValidationResult)
      (st : State) : option string :=
  match validateKey (trim (key st)) with
  | Resolved result => if valid result then as_truthy (user_name result) else None
  | _ => None
  end.

(** The component together with the store it writes to. *)
Record World := mkWorld {
    local : State;
    store : AppState
}.

Definition apply_effect (w : World) (e : Effect) : World :=
  match e with
  | PreventDefault => w
  | SetError e =>
      {| local := {| key := key (local w); isLoading := isLoading (local w);
                     error := e |};
         store := store w |}
  | SetIsLoading b =>
      {| local := {| key := key (local w); isLoading := b;
                     error := error (local w) |};
         store := store w |}
  | Invoke _ => w
  | StoreAct a => {| local := local w; store := Store.dispatch a (store w) |}
  end.

Definition run (es : list Effect) (w : World) : World :=
  foldl apply_effect w es.

(** One submission of the form. *)
Definition submit (validateKey : string → Outcome ValidationResult)
      (now_ms : Z) (w : World) : World :=
  run (handleSubmit validateKey now_ms (local w)) w.

End KeyEntry.

(** ** app/page.tsx: the start-up effect of [Home] *)

Module Home.
Import Tauri.

Inductive Effect :=
  | ConsoleLog (msg : string)
  | Invoke (c : Command)
  | StoreAct (a : Store.Action).

(** [init]: a rejected command ends [init] where it is (nothing catches
    it).  [checkStoredKey] does not reach the back end outside Tauri. *)
Definition init (isTauri : bool) (checkStoredKey : Outcome bool)
      (getUserInfo : Outcome (option KeyPayload)) : list Effect :=
  if negb isTauri then
    [ConsoleLog "Running in browser mode - showing key entry";
     StoreAct (Store.ASetScreen key_entry)]
  else
    Invoke check_stored_key ::
    match checkStoredKey with
    | Resolved true =>
        Invoke get_user_info ::
        match getUserInfo with
        | Resolved (Some user) =>
            [StoreAct (Store.ASetUser (Some user)); StoreAct (Store.ASetScreen main)]
        | Resolved None => [StoreAct (Store.ASetScreen key_entry)]
        | _ => []
        end
    | Resolved false => [StoreAct (Store.ASetScreen key_entry)]
    | _ => []
    end.

Definition apply_effect (st : AppState) (e : Effect) : AppState :=
  match e with
  | StoreAct a => Store.dispatch a st
  | _ => st
  end.

Definition run (es : list Effect) (st : AppState) : AppState :=
  foldl apply_effect st es.

End Home.

(** ** components/SyncPanel.tsx *)

Module SyncPanel.
Import Tauri.

Inductive SyncMode := upload | download.

Record DeleteResult := mkDeleteResult {
    success : bool;
    count : option N;
    delete_error : option string
}.

(** The component's [useState] cells, and the timer of its polling
    effect: [interval] is the period of the pending [setInterval], if any. *)
Record State := mkState {
    mode : option SyncMode;
    progress : option SyncProgress;
    isLoading : bool;
    isSyncing : bool;
    showDeleteConfirm : bool;
    isDeleting : bool;
    deleteResult : option DeleteResult;
    credentialsStatus : option CredentialsStatus;
    interval : option N
}.

Definition initial : State :=
  {| mode := None; progress := None; isLoading := false; isSyncing := false;
     showDeleteConfirm := false; isDeleting := false; deleteResult := None;
     credentialsStatus := None; interval := None |}.

Inductive Effect :=
  | SetMode (m : option SyncMode)
  | SetProgress (p : option SyncProgress)
  | SetIsLoading (b : bool)
  | SetIsSyncing (b : bool)
  | SetShowDeleteConfirm (b : bool)
  | SetIsDeleting (b : bool)
  | SetDeleteResult (r : option DeleteResult)
  | SetCredentialsStatus (s : option CredentialsStatus)
  | Invoke (c : Command)
  | StoreAct (a : Store.Action)
  | ConsoleError (msg : string).

(** *** The progress polling effect *)

Definition POLL_INTERVAL_MS : N := 500.

(** [p.status === 'Completed' || (typeof p.status === 'object' && 'Error' in p.status)] *)
Definition is_terminal (s : SyncStatus) : bool :=
  match s with
  | Completed => true
  | Error _ => true
  | _ => false
  end.

(** The body of the interval callback, given how [getSyncProgress] settles. *)
Definition poll (getSyncProgress : Outcome SyncProgress) : list Effect :=
  Invoke get_sync_progress ::
  match getSyncProgress with
  | Resolved p =>
      SetProgress (Some p) ::
      (if is_terminal (status p) then [SetIsSyncing false] else [])
  | _ => [ConsoleError "Failed to get progress:"]
  end.

(** What the effect with dependency [[isSyncing]] leaves behind: an
    interval of 500 ms when syncing, none otherwise. *)
Definition polling_effect (isSyncing : bool) : option N :=
  if isSyncing then Some POLL_INTERVAL_MS else None.

(** *** The event handlers *)

Definition handleStartUpload (selectedSourceFolders : list string)
      (startUpload : Outcome unit) : list Effect :=
  if (length selectedSourceFolders =? 0)%nat then []
  else
    [SetIsSyncing true; Invoke (start_upload selectedSourceFolders)]
    ++ match startUpload with
       | Resolved _ => []
       | _ => [ConsoleError "Upload failed:"; SetIsSyncing false]
       end.

Definition handleStartDownload (selectedCloudFolder selectedTargetFolder : option string)
      (startDownload : Outcome unit) : list Effect :=
  match as_truthy selectedCloudFolder, as_truthy selectedTargetFolder with
  | Some cloudFolder, Some targetPath =>
      [SetIsSyncing true; Invoke (start_download cloudFolder targetPath)]
      ++ match startDownload with
         | Resolved _ => []
         | _ => [ConsoleError "Download failed:"; SetIsSyncing false]
         end
  | _, _ => []
  end.

Definition handlePause : list Effect := [Invoke pause_sync].

Definition handleResume : list Effect := [Invoke resume_sync].

(** [await cancelSync()] comes first: when it rejects, the two setters
    after it are not reached. *)
Definition handleCancel (cancelSync : Outcome unit) : list Effect :=
  Invoke cancel_sync ::
  match cancelSync with
  | Resolved _ => [SetIsSyncing false; SetProgress None]
  | _ => []
  end.

Definition handleLogout (logout_result : Outcome unit) : list Effect :=
  Invoke logout ::
  match logout_result with
  | Resolved _ => [StoreAct (Store.ASetUser None); StoreAct (Store.ASetScreen key_entry)]
  | _ => []
  end.

Definition handleBack : list Effect :=
  [SetMode None; StoreAct Store.AClearSourceFolders;
   StoreAct (Store.ASetTargetFolder None);
   StoreAct (Store.ASetSelectedCloudFolder None); SetProgress None].

(** [folders.forEach(addSourceFolder)] on what the folder dialog returned. *)
Definition handleSelectSourceFolders (folders : list string) : list Effect :=
  map (λ p, StoreAct (Store.AAddSourceFolder p)) folders.

Definition handleSelectTargetFolder (folder : option string) : list Effect :=
  match as_truthy folder with
  | Some f => [StoreAct (Store.ASetTargetFolder (Some f))]
  | None => []
  end.

(** [disabled] of the two start buttons. *)
Definition startUpload_disabled (selectedSourceFolders : list string) : bool :=
  (length selectedSourceFolders =? 0)%nat.

Definition startDownload_disabled (selectedCloudFolder selectedTargetFolder : option string) : bool :=
  negb (truthy selectedCloudFolder) || negb (truthy selectedTargetFolder).

(** *** The credentials warning banner *)

Inductive BannerStyle := red | amber | teal.

(** The banner is rendered when [credentialsStatus?.warning] is truthy;
    its colour follows [valid] and [days_remaining]. *)
Definition banner (cs : option CredentialsStatus) : option (BannerStyle * string) :=
  match cs with
  | Some s =>
      match as_truthy (warning s) with
      | Some w =>
          Some (if negb (cs_valid s) then red
                else if (days_remaining s <=? 30)%Z then amber
                else teal, w)
      | None => None
      end
  | None => None
  end.

(** *** Running the component *)

Record World := mkWorld {
    local : State;
    store : AppState
}.

Definition set_local (f : State → State) (w : World) : World :=
  {| local := f (local w); store := store w |}.

Definition apply_effect (w : World) (e : Effect) : World :=
  match e with
  | SetMode m =>
      set_local (λ s, {| mode := m; progress := progress s; isLoading := isLoading s;
        isSyncing := isSyncing s; showDeleteConfirm := showDeleteConfirm s;
        isDeleting := isDeleting s; deleteResult := deleteResult s;
        credentialsStatus := credentialsStatus s; interval := interval s |}) w
  | SetProgress p =>
      set_local (λ s, {| mode := mode s; progress := p; isLoading := isLoading s;
        isSyncing := isSyncing s; showDeleteConfirm := showDeleteConfirm s;
        isDeleting := isDeleting s; deleteResult := deleteResult s;
        credentialsStatus := credentialsStatus s; interval := interval s |}) w
  | SetIsLoading b =>
      set_local (λ s, {| mode := mode s; progress := progress s; isLoading := b;
        isSyncing := isSyncing s; showDeleteConfirm := showDeleteConfirm s;
        isDeleting := isDeleting s; deleteResult := deleteResult s;
        credentialsStatus := credentialsStatus s; interval := interval s |}) w
  | SetIsSyncing b =>
      set_local (λ s, {| mode := mode s; progress := progress s; isLoading := isLoading s;
        isSyncing := b; showDeleteConfirm := showDeleteConfirm s;
        isDeleting := isDeleting s; deleteResult := deleteResult s;
        credentialsStatus := credentialsStatus s; interval := interval s |}) w
  | SetShowDeleteConfirm b =>
      set_local (λ s, {| mode := mode s; progress := progress s; isLoading := isLoading s;
        isSyncing := isSyncing s; showDeleteConfirm := b;
        isDeleting := isDeleting s; deleteResult := deleteResult s;
        credentialsStatus := credentialsStatus s; interval := interval s |}) w
  | SetIsDeleting b =>
      set_local (λ s, {| mode := mode s; progress := progress s; isLoading := isLoading s;
        isSyncing := isSyncing s; showDeleteConfirm := showDeleteConfirm s;
        isDeleting := b; deleteResult := deleteResult s;
        credentialsStatus := credentialsStatus s; interval := interval s |}) w
  | SetDeleteResult r =>
      set_local (λ s, {| mode := mode s; progress := progress s; isLoading := isLoading s;
        isSyncing := isSyncing s; showDeleteConfirm := showDeleteConfirm s;
        isDeleting := isDeleting s; deleteResult := r;
        credentialsStatus := credentialsStatus s; interval := interval s |}) w
  | SetCredentialsStatus c =>
      set_local (λ s, {| mode := mode s; progress := progress s; isLoading := isLoading s;
        isSyncing := isSyncing s; showDeleteConfirm := showDeleteConfirm s;
        isDeleting := isDeleting s; deleteResult := deleteResult s;
        credentialsStatus := c; interval := interval s |}) w
  | Invoke _ => w
  | StoreAct a => {| local := local w; store := Store.dispatch a (store w) |}
  | ConsoleError _ => w
  end.

Definition run (es : list Effect) (w : World) : World :=
  foldl apply_effect w es.

(** After the state updates of a handler React renders again; the polling
    effect is cleaned up (its interval cleared) and run anew when
    [isSyncing] is not what it was at the previous render. *)
Definition commit (before after : World) : World :=
  if Bool.eqb (isSyncing (local before)) (isSyncing (local after)) then after
  else
    set_local (λ s, {| mode := mode s; progress := progress s; isLoading := isLoading s;
      isSyncing := isSyncing s; showDeleteConfirm := showDeleteConfirm s;
      isDeleting := isDeleting s; deleteResult := deleteResult s;
      credentialsStatus := credentialsStatus s;
      interval := polling_effect (isSyncing s) |}) after.

(** What can happen to the mounted component.  Each event carries the way
    the command it awaits settles, and its handler runs to its end before
    the next event: what could happen while a handler is waiting for its
    command is not followed.  The events are those of the sync flow: the
    effect that loads the cloud folders when download mode is entered, and
    the log-out, delete-all and refresh buttons, are not among them; their
    handlers are run on their own. *)
Inductive Event :=
  | Tick (getSyncProgress : Outcome SyncProgress)
  | ClickStartUpload (startUpload : Outcome unit)
  | ClickStartDownload (startDownload : Outcome unit)
  | ClickPause
  | ClickResume
  | ClickCancel (cancelSync : Outcome unit)
  | ClickBack
  | ClickMode (m : SyncMode)
  | FoldersPicked (folders : list string)
  | TargetPicked (folder : option string)
  | CloudFolderClicked (path : string)
  | FolderRemoved (path : string)
  | CredentialsChecked (status : Outcome CredentialsStatus).

(** The interval callback runs only while an interval is pending. *)
Definition effects_of (w : World) (ev : Event) : list Effect :=
  match ev with
  | Tick o => match interval (local w) with Some _ => poll o | None => [] end
  | ClickStartUpload o => handleStartUpload (selectedSourceFolders (store w)) o
  | ClickStartDownload o =>
      handleStartDownload (selectedCloudFolder (store w))
                          (selectedTargetFolder (store w)) o
  | ClickPause => handlePause
  | ClickResume => handleResume
  | ClickCancel o => handleCancel o
  | ClickBack => handleBack
  | ClickMode m => [SetMode (Some m)]
  | FoldersPicked fs => handleSelectSourceFolders fs
  | TargetPicked f => handleSelectTargetFolder f
  | CloudFolderClicked p => [StoreAct (Store.ASetSelectedCloudFolder (Some p))]
  | FolderRemoved p => [StoreAct (Store.ARemoveSourceFolder p)]
  | CredentialsChecked o =>
      Invoke check_credentials_status ::
      match o with
      | Resolved s => [SetCredentialsStatus (Some s)]
      | _ => [ConsoleError "Failed to check credentials status:"]
      end
  end.

Definition step (w : World) (ev : Event) : World :=
  commit w (run (effects_of w ev) w).

Definition steps (w : World) (evs : list Event) : World :=
  foldl step w evs.

(** The component as first rendered over a store. *)
Definition mount (st : AppState) : World :=
  {| local := initial; store := st |}.

(** An interval is pending exactly while [isSyncing] holds, and its
    period is the fixed one. *)
Definition polling_consistent (w : World) : Prop :=
  interval (local w) = polling_effect (isSyncing (local w)).

(** The commands a sequence of events sends to the back end, in order. *)
Definition invoked (es : list Effect) : list Command :=
  omap (λ e, match e with Invoke c => Some c | _ => None end) es.

Fixpoint trace (w : World) (evs : list Event) : list Command :=
  match evs with
  | [] => []
  | ev :: evs => invoked (effects_of w ev) ++ trace (step w ev) evs
  end.

(** What holds of the store when a start command is sent. *)
Definition start_guard (st : AppState) (c : Command) : Prop :=
  match c with
  | start_upload paths => paths = selectedSourceFolders st ∧ paths ≠ []
  | start_download cf tp =>
      selectedCloudFolder st = Some cf ∧ selectedTargetFolder st = Some tp
      ∧ cf ≠ "" ∧ tp ≠ ""
  | _ => True
  end.

End SyncPanel.

(** ** The admin policy store (back end) *)

Module Admin.

(** Modelled from the spec: [authorize] of the admin policy store
    (admin.rs of the back end is not among the sources).  The two policy
    objects are sets of uid strings; fetching either may fail. *)
Inductive Decision :=
  | Allowed
  | Denied (reason : string).

(** What fetching [_admin/blacklist.json] and [_admin/whitelist.json]
    gave: the set, or [None] when the fetch failed. *)
Record PolicyFetch := mkPolicyFetch {
    blacklist : option (gset string);
    whitelist : option (gset string)
}.

(** Modelled from the spec: [authorize] (admin.rs is missing).  A failed
    fetch denies with ["policy unavailable"]; a blacklisted uid is denied;
    otherwise an empty whitelist, or one that holds the uid, allows. *)
Definition authorize (policy : PolicyFetch) (uid : string) : Decision :=
  match blacklist policy, whitelist policy with
  | Some bl, Some wl =>
      if decide (uid ∈ bl) then Denied "blacklisted"
      else if decide (wl = ∅ ∨ uid ∈ wl) then Allowed
      else Denied "not whitelisted"
  | _, _ => Denied "policy unavailable"
  end.

Definition is_denied (d : Decision) : bool :=
  match d with
  | Denied _ => true
  | Allowed => false
  end.

End Admin.

(** ** The credential expiry monitor (back end) *)

Module Expiry.

(** Modelled from the spec: [check_expiry] of the expiry monitor
    (s3_client.rs of the back end is not among the sources).  Times are
    seconds since the epoch.  The spec fixes neither the expiry date nor
    the wording of the warnings, so they are the fields of a
    configuration: one message for expired credentials, and one for each
    number of days left. *)
Record Config := mkConfig {
    expiry : Z;
    expiry_text : string;
    expired_message : string;
    expiring_message : Z → string
}.

Definition SECONDS_PER_DAY : Z := 86400.

Definition WARNING_DAYS : Z := 30.

(** [floor((expiry_date - now) / 1 day)]; [Z.div] rounds down. *)
Definition days_left (cfg : Config) (now : Z) : Z :=
  ((expiry cfg - now) / SECONDS_PER_DAY)%Z.

(** Modelled from the spec: [check_expiry] (s3_client.rs is missing).
    Invalid when the days left are negative; a warning when they are at
    most 30, the expired message when they are negative. *)
Definition check_expiry (cfg : Config) (now : Z) : CredentialsStatus :=
  let d := days_left cfg now in
  {| cs_valid := negb (d <? 0)%Z;
     days_remaining := d;
     expiry_date := expiry_text cfg;
     warning := if (d <? 0)%Z then Some (expired_message cfg)
                else if (d <=? WARNING_DAYS)%Z then Some (expiring_message cfg d)
                else None |}.

End Expiry.

(** ** The transfer worker and its control signals (back end) *)

Module Engine.

(** Modelled from the spec: the transfer worker, the progress tracker and
    the pause, resume and cancel signals (sync_engine.rs and commands.rs
    of the back end are not among the sources).  The worker and the
    command handlers run concurrently; a run of the system is the sequence
    in which their atomic steps take place.  The worker handles one plan
    entry per step and looks at the signals before each.  Speed and ETA
    reporting are left out. *)
Record State := mkState {
    progress : SyncProgress;
    cancel_requested : bool;
    pause_requested : bool;
    worker : option (list (string * N))
}.

Definition idle_progress : SyncProgress :=
  {| status := Idle; direction := None; total_files := 0; completed_files := 0;
     total_bytes := 0; transferred_bytes := 0; current_file := None;
     bytes_per_second := 0; eta_seconds := None |}.

Definition initial : State :=
  {| progress := idle_progress; cancel_requested := false;
     pause_requested := false; worker := None |}.

Definition with_status (s : SyncStatus) (p : SyncProgress) : SyncProgress :=
  {| status := s; direction := direction p; total_files := total_files p;
     completed_files := completed_files p; total_bytes := total_bytes p;
     transferred_bytes := transferred_bytes p; current_file := current_file p;
     bytes_per_second := bytes_per_second p; eta_seconds := eta_seconds p |}.

Definition plan_bytes (plan : list (string * N)) : N :=
  foldr (λ e acc, (snd e + acc)%N) 0%N plan.

(** The steps of a run: the commands of the UI, and a step of the worker,
    which carries how the transfer of the current file ended ([None]: it
    went through; [Some m]: it failed with message [m]). *)
Inductive Event :=
  | Start (plan : list (string * N)) (dir : SyncDirection)
  | PauseSync
  | ResumeSync
  | CancelSync
  | GetSyncProgress
  | WorkerStep (failure : option string).

(** Modelled from the spec: starting a sync (sync_engine.rs is missing).
    Ignored while a worker is active; otherwise the snapshot is reset and
    the signals are lowered. *)
Definition start (plan : list (string * N)) (dir : SyncDirection) (e : State) : State :=
  match worker e with
  | Some _ => e
  | None =>
      {| progress :=
           {| status := Scanning; direction := Some dir;
              total_files := N.of_nat (length plan); completed_files := 0;
              total_bytes := plan_bytes plan; transferred_bytes := 0;
              current_file := None; bytes_per_second := 0; eta_seconds := None |};
         cancel_requested := false;
         pause_requested := false;
         worker := Some plan |}
  end.

(** Modelled from the spec: the [cancel_sync] command (commands.rs is
    missing).  It raises the one-way cancel signal and returns at once. *)
Definition cancel_sync (e : State) : State :=
  {| progress := progress e; cancel_requested := true;
     pause_requested := pause_requested e; worker := worker e |}.

Definition pause_sync (e : State) : State :=
  {| progress := progress e; cancel_requested := cancel_requested e;
     pause_requested := true; worker := worker e |}.

Definition resume_sync (e : State) : State :=
  {| progress := progress e; cancel_requested := cancel_requested e;
     pause_requested := false; worker := worker e |}.

(** [get_sync_progress]: the current snapshot. *)
Definition get_sync_progress (e : State) : SyncProgress := progress e.

(** Modelled from the spec: one step of the transfer worker
    (sync_engine.rs is missing).  A raised cancel signal stops the worker
    and sets the status to [Idle], leaving the counters and the partial
    file as they are; a pause signal parks it; otherwise the next plan
    entry is transferred, and a failure halts the plan with [Error]. *)
Definition worker_step (failure : option string) (e : State) : State :=
  match worker e with
  | None => e
  | Some plan =>
      if cancel_requested e then
        {| progress := with_status Idle (progress e);
           cancel_requested := true;
           pause_requested := pause_requested e;
           worker := None |}
      else if pause_requested e then
        {| progress := with_status Paused (progress e);
           cancel_requested := false; pause_requested := true;
           worker := Some plan |}
      else
        match plan with
        | [] =>
            {| progress := with_status Completed (progress e);
               cancel_requested := false; pause_requested := false;
               worker := None |}
        | (path, size) :: rest =>
            match failure with
            | Some m =>
                {| progress := with_status (Error m) (progress e);
                   cancel_requested := false; pause_requested := false;
                   worker := None |}
            | None =>
                let p := progress e in
                {| progress :=
                     {| status := Syncing; direction := direction p;
                        total_files := total_files p;
                        completed_files := (completed_files p + 1)%N;
                        total_bytes := total_bytes p;
                        transferred_bytes := (transferred_bytes p + size)%N;
                        current_file := Some path;
                        bytes_per_second := bytes_per_second p;
                        eta_seconds := eta_seconds p |};
                   cancel_requested := false; pause_requested := false;
                   worker := Some rest |}
            end
        end
  end.

Definition step (e : State) (ev : Event) : State :=
  match ev with
  | Start plan dir => start plan dir e
  | PauseSync => pause_sync e
  | ResumeSync => resume_sync e
  | CancelSync => cancel_sync e
  | GetSyncProgress => e
  | WorkerStep failure => worker_step failure e
  end.

Definition steps (e : State) (evs : list Event) : State := foldl step e evs.

Definition is_worker_step (ev : Event) : bool :=
  match ev with WorkerStep _ => true | _ => false end.

Definition is_start (ev : Event) : bool :=
  match ev with Start _ _ => true | _ => false end.

End Engine.

(** ** The license crypto module (back end) *)

Module Crypto.

(** Modelled from the spec: [encrypt] and [decrypt] of the license crypto
    module (crypto.rs of the back end is not among the sources), for
    section 4.1: the payload is serialized to canonical JSON, sealed with
    an authenticated cipher under a fresh nonce, the nonce and the sealed
    bytes are concatenated, encoded in lower-case hexadecimal and prefixed
    with the tag [EXAD-]; [decrypt] undoes each step and fails on any
    error.  The cipher itself is library code and is a parameter, as are
    the master key and the nonce that [encrypt] draws. *)
Record KeyPayload := mkKeyPayload {
    uid : string;
    name : string;
    created : Z
}.

Definition KEY_PREFIX : string := "EXAD-".
Definition KEY_LEN : nat := 32.
Definition NONCE_LEN : nat := 12.

(** *** The cipher interface *)

(** [seal key nonce plaintext] is the ciphertext followed by the
    integrity tag; [open key nonce sealed] is the plaintext when the tag
    verifies. *)
Record Aead := mkAead {
    seal : list byte → list byte → list byte → list byte;
    open : list byte → list byte → list byte → option (list byte)
}.

(** Opening what was sealed under the same key and nonce gives the
    plaintext back. *)
Definition aead_correct (C : Aead) : Prop :=
  ∀ key nonce plaintext,
    length key = KEY_LEN → length nonce = NONCE_LEN →
    open C key nonce (seal C key nonce plaintext) = Some plaintext.

(** Only what was sealed under the key and nonce opens (the cipher is
    deterministic given the nonce, and the tag is checked). *)
Definition aead_binding (C : Aead) : Prop :=
  ∀ key nonce sealed plaintext,
    open C key nonce sealed = Some plaintext →
    sealed = seal C key nonce plaintext.

(** *** Strings *)

Definition quote : ascii := "034"%char.
Definition backslash : ascii := "092"%char.

Fixpoint strip_prefix (p s : string) : option string :=
  match p with
  | EmptyString => Some s
  | String a p' =>
      match s with
      | EmptyString => None
      | String b s' => if Ascii.eqb a b then strip_prefix p' s' else None
      end
  end.

(** The string without its last character, and that character. *)
Fixpoint unsnoc (s : string) : option (string * ascii) :=
  match s with
  | EmptyString => None
  | String c EmptyString => Some (EmptyString, c)
  | String c s' =>
      match unsnoc s' with
      | Some (b, l) => Some (String c b, l)
      | None => None
      end
  end.

(** *** Hexadecimal *)

Definition hex_digit (n : N) : ascii :=
  if (n <? 10)%N then ascii_of_N (48 + n) else ascii_of_N (87 + n).

Definition hex_value (c : ascii) : option N :=
  let n := N_of_ascii c in
  if ((48 <=? n) && (n <=? 57))%N then Some (n - 48)%N
  else if ((97 <=? n) && (n <=? 102))%N then Some (n - 87)%N
  else None.

Definition hex_byte (b : byte) : string :=
  String (hex_digit (Byte.to_N b / 16)) (String (hex_digit (Byte.to_N b mod 16)) EmptyString).

Fixpoint hex_encode (bs : list byte) : string :=
  match bs with
  | [] => EmptyString
  | b :: bs' => hex_byte b +:+ hex_encode bs'
  end.

Fixpoint hex_decode (s : string) : option (list byte) :=
  match s with
  | EmptyString => Some []
  | String _ EmptyString => None
  | String h (String l s') =>
      match hex_value h, hex_value l with
      | Some a, Some b =>
          match Byte.of_N (16 * a + b), hex_decode s' with
          | Some x, Some bs => Some (x :: bs)
          | _, _ => None
          end
      | _, _ => None
      end
  end.

(** *** JSON text of a payload *)

(** The characters with a two-character escape other than the quote and
    the backslash: backspace, tab, line feed, form feed, carriage return. *)
Definition short_escape (n : N) : option ascii :=
  if (n =? 8)%N then Some "b"%char
  else if (n =? 9)%N then Some "t"%char
  else if (n =? 10)%N then Some "n"%char
  else if (n =? 12)%N then Some "f"%char
  else if (n =? 13)%N then Some "r"%char
  else None.

Definition has_short_escape (n : N) : bool :=
  match short_escape n with
  | Some _ => true
  | None => false
  end.

Definition escape_char (c : ascii) : string :=
  let n := N_of_ascii c in
  if (n =? 34)%N then String backslash (String quote EmptyString)
  else if (n =? 92)%N then String backslash (String backslash EmptyString)
  else match short_escape n with
       | Some e => String backslash (String e EmptyString)
       | None =>
           if (n <? 32)%N then
             String backslash
               ("u00" +:+ String (hex_digit (n / 16))
                            (String (hex_digit (n mod 16)) EmptyString))
           else String c EmptyString
       end.

Fixpoint escape (s : string) : string :=
  match s with
  | EmptyString => EmptyString
  | String c s' => escape_char c +:+ escape s'
  end.

(** One character of a JSON string, escaped or not, from the front of
    [s]; the closing quote is not one. *)
Definition parse_char (s : string) : option (ascii * string) :=
  match s with
  | EmptyString => None
  | String c r =>
      let n := N_of_ascii c in
      if (n =? 34)%N then None
      else if (n =? 92)%N then
        match r with
        | EmptyString => None
        | String e r' =>
            let m := N_of_ascii e in
            if (m =? 34)%N then Some (quote, r')
            else if (m =? 92)%N then Some (backslash, r')
            else if (m =? 98)%N then Some (ascii_of_N 8, r')
            else if (m =? 116)%N then Some (ascii_of_N 9, r')
            else if (m =? 110)%N then Some (ascii_of_N 10, r')
            else if (m =? 102)%N then Some (ascii_of_N 12, r')
            else if (m =? 114)%N then Some (ascii_of_N 13, r')
            else if (m =? 117)%N then
              match r' with
              | String z1 (String z2 (String h (String l r''))) =>
                  if Ascii.eqb z1 "0" && Ascii.eqb z2 "0" then
                    match hex_value h, hex_value l with
                    | Some a, Some b =>
                        let v := (16 * a + b)%N in
                        if (v <? 32)%N && negb (has_short_escape v)
                        then Some (ascii_of_N v, r'')
                        else None
                    | _, _ => None
                    end
                  else None
              | _ => None
              end
            else None
        end
      else if (n <? 32)%N then None
      else Some (c, r)
  end.

(** The characters of a JSON string up to its closing quote, and what
    follows the quote.  Every step consumes input, so [fuel] at least the
    length of [s] is enough. *)
Fixpoint parse_string_body (fuel : nat) (s : string) : option (string * string) :=
  match fuel with
  | O => None
  | S fuel' =>
      match s with
      | EmptyString => None
      | String c r =>
          if Ascii.eqb c quote then Some (EmptyString, r)
          else
            match parse_char s with
            | Some (x, r') =>
                match parse_string_body fuel' r' with
                | Some (v, rest) => Some (String x v, rest)
                | None => None
                end
            | None => None
            end
      end
  end.

Definition parse_string (s : string) : option (string * string) :=
  parse_string_body (String.length s) s.

Definition print_Z (z : Z) : string := NilZero.string_of_int (Z.to_int z).

(** A decimal integer in canonical form: no leading zeros, no [-0]. *)
Definition parse_Z (s : string) : option Z :=
  match NilZero.int_of_string s with
  | Some i =>
      let z := Z.of_int i in
      if String.eqb (print_Z z) s then Some z else None
  | None => None
  end.

Definition open_uid : string := "{" +:+ String quote ("uid" +:+ String quote (":" +:+ String quote EmptyString)).
Definition open_name : string := "," +:+ String quote ("name" +:+ String quote (":" +:+ String quote EmptyString)).
Definition open_created : string := "," +:+ String quote ("created" +:+ String quote ":").

(** [{"uid":"...","name":"...","created":...}] *)
Definition to_json (p : KeyPayload) : string :=
  open_uid +:+ escape (uid p) +:+ String quote
    (open_name +:+ escape (name p) +:+ String quote
       (open_created +:+ print_Z (created p) +:+ "}")).

Definition of_json (s : string) : option KeyPayload :=
  r1 ← strip_prefix open_uid s;
  '(u, r2) ← parse_string r1;
  r3 ← strip_prefix open_name r2;
  '(n, r4) ← parse_string r3;
  r5 ← strip_prefix open_created r4;
  '(digits, last) ← unsnoc r5;
  if Ascii.eqb last "}" then
    z ← parse_Z digits; Some {| uid := u; name := n; created := z |}
  else None.

(** *** The license key *)

(** Modelled from the spec: [encrypt] (crypto.rs is missing).  [nonce] is
    the fresh nonce drawn for this encryption. *)
Definition encrypt (C : Aead) (master_key nonce : list byte) (payload : KeyPayload) : string :=
  KEY_PREFIX +:+
  hex_encode (nonce ++ seal C master_key nonce (list_byte_of_string (to_json payload))).

(** Modelled from the spec: [decrypt] (crypto.rs is missing).  [None]
    stands for the failure [InvalidKey]: a wrong prefix, a decoding error,
    a tag that does not verify, or malformed JSON. *)
Definition decrypt (C : Aead) (master_key : list byte) (key_string : string) : option KeyPayload :=
  encoded ← strip_prefix KEY_PREFIX key_string;
  raw ← hex_decode encoded;
  if (length raw <? NONCE_LEN)%nat then None
  else
    plaintext ← open C master_key (take NONCE_LEN raw) (drop NONCE_LEN raw);
    of_json (string_of_list_byte plaintext).

(** The keys [encrypt] can produce. *)
Definition is_license_key (C : Aead) (master_key : list byte) (key_string : string) : Prop :=
  ∃ nonce payload,
    length nonce = NONCE_LEN ∧ key_string = encrypt C master_key nonce payload.

End Crypto.

(** ** A small cipher with the AEAD interface

    Every byte of the plaintext is shifted by a pad derived from the key
    and the nonce; the tag is sixteen copies of a checksum of pad and
    plaintext.  It offers no secrecy; it is here so that the interface of
    [Crypto.Aead] has an inhabitant to compute with. *)

Module ShiftCipher.

#[global] Instance byte_eq_dec : EqDecision byte := Byte.byte_eq_dec.

Definition TAG_LEN : nat := 16.

Definition sum_bytes (bs : list byte) : N :=
  foldr (λ b acc, (Byte.to_N b + acc)%N) 0%N bs.

Definition byte_of_N (n : N) : byte :=
  match Byte.of_N (n mod 256) with
  | Some b => b
  | None => x00
  end.

Definition pad (key nonce : list byte) : N :=
  ((sum_bytes key + sum_bytes nonce) mod 256)%N.

Definition shift (p : N) (b : byte) : byte := byte_of_N (Byte.to_N b + p).

Definition unshift (p : N) (b : byte) : byte := byte_of_N (Byte.to_N b + (256 - p mod 256)).

Definition tag (key nonce plaintext : list byte) : list byte :=
  replicate TAG_LEN (byte_of_N (pad key nonce + sum_bytes plaintext)).

Definition seal (key nonce plaintext : list byte) : list byte :=
  map (shift (pad key nonce)) plaintext ++ tag key nonce plaintext.

Definition open (key nonce sealed : list byte) : option (list byte) :=
  if (length sealed <? TAG_LEN)%nat then None
  else
    let n := (length sealed - TAG_LEN)%nat in
    let plaintext := map (unshift (pad key nonce)) (take n sealed) in
    if bool_decide (drop n sealed = tag key nonce plaintext)
    then Some plaintext else None.

Definition cipher : Crypto.Aead :=
  {| Crypto.seal := seal; Crypto.open := open |}.

(** A key of 32 bytes and a nonce of 12 bytes to compute with. *)
Definition sample_key : list byte := replicate 32 x2a.
Definition sample_nonce : list byte := replicate 12 x07.

End ShiftCipher.

(** ** The [validate_key] command (back end) *)

Module Commands.

(** Modelled from the spec: the [validate_key] command (commands.rs of the
    back end is not among the sources).  It consults the license crypto
    module, then the admin policy store, then the expiry monitor, and
    answers with a [ValidationResult]; it never fails otherwise.  The
    spec gives the error text of an undecodable key, ["Invalid key"]; a
    denial carries the reason of [authorize]. *)
Definition rejected (reason : string) : ValidationResult :=
  {| valid := false; user_name := None; error := Some reason |}.

(** Modelled from the spec: the [validate_key] command (commands.rs is
    missing). *)
Definition validate_key (C : Crypto.Aead) (master_key : list byte)
      (policy : Admin.PolicyFetch) (cfg : Expiry.Config) (now : Z)
      (key : string) : ValidationResult :=
  match Crypto.decrypt C master_key key with
  | None => rejected "Invalid key"
  | Some payload =>
      match Admin.authorize policy (Crypto.uid payload) with
      | Admin.Denied reason => rejected reason
      | Admin.Allowed =>
          if cs_valid (Expiry.check_expiry cfg now)
          then {| valid := true; user_name := Some (Crypto.name payload);
                  error := None |}
          else rejected "Credentials expired"
      end
  end.

End Commands.

(** [s] is white space throughout, as [trim] sees it: a sequence of
    encoded white space code points. *)
Inductive blank : string → Prop :=
| blank_empty : blank EmptyString
| blank_space ws s : KeyEntry.is_space ws = true → blank s → blank (ws +:+ s).

(** U+00A0 NO-BREAK SPACE and U+3000 IDEOGRAPHIC SPACE, encoded. *)
Definition NBSP : string := String "194" (String "160" EmptyString).
Definition IDEOGRAPHIC_SPACE : string :=
  String "227" (String "128" (String "128" EmptyString)).

(** ** lib/tauri.ts: the dialog helper *)

Module Format.

(** What the folder dialog resolves with: the chosen paths, one path, or
    [null] when the dialog is dismissed. *)
Inductive OpenResult :=
| OpenPaths (paths : list string)
| OpenPath (path : string)
| OpenNull.

(** [selectFolders]: [Array.isArray(result) ? result : result ? [result] : []] *)
Definition selectFolders (result : OpenResult) : list string :=
  match result with
  | OpenPaths paths => paths
  | OpenPath path => if String.eqb path "" then [] else [path]
  | OpenNull => []
  end.

End Format.

(** ** components/Progress.tsx *)

Module Progress.

(** The props [onPause], [onResume] and [onCancel]. *)
Inductive Callback := onPause | onResume | onCancel.

Inductive Button := ResumeButton | PauseButton | CancelButton | CloseButton.

Definition isPaused (s : SyncStatus) : bool :=
  match s with Paused => true | _ => false end.

Definition isCompleted (s : SyncStatus) : bool :=
  match s with Completed => true | _ => false end.

Definition hasError (s : SyncStatus) : bool :=
  match s with Error _ => true | _ => false end.

(** The control buttons, in the order they are rendered. *)
Definition controls (s : SyncStatus) : list Button :=
  (if negb (isCompleted s) && negb (hasError s)
   then [if isPaused s then ResumeButton else PauseButton; CancelButton]
   else [])
  ++ (if isCompleted s || hasError s then [CloseButton] else []).

(** The [onClick] of each button. *)
Definition onClick (b : Button) : Callback :=
  match b with
  | ResumeButton => onResume
  | PauseButton => onPause
  | CancelButton => onCancel
  | CloseButton => onCancel
  end.

End Progress.

(** ** components/SyncPanel.tsx: what is rendered, and the other handlers *)

Module SyncPanelUI.
Import Tauri SyncPanel.

(** The four returns of the component. *)
Inductive View :=
| ProgressView (p : SyncProgress)
| ModeSelection
| UploadView
| DownloadView.

Definition view (w : World) : View :=
  match progress (local w), isSyncing (local w) with
  | Some p, true => ProgressView p
  | _, _ =>
      match mode (local w) with
      | None => ModeSelection
      | Some upload => UploadView
      | Some download => DownloadView
      end
  end.

(** How the panel wires the callbacks of [Progress], given how the command
    settles. *)
Definition callback (c : Progress.Callback) (o : Outcome unit) : list Effect :=
  match c with
  | Progress.onPause => handlePause
  | Progress.onResume => handleResume
  | Progress.onCancel => handleCancel o
  end.

(** [handleDeleteAll], given how [deleteAllFiles] settles. *)
Definition handleDeleteAll (deleteAllFiles : Outcome N) : list Effect :=
  [SetIsDeleting true; SetDeleteResult None; Invoke delete_all_files]
  ++ match deleteAllFiles with
     | Resolved count =>
         [SetDeleteResult (Some {| success := true; count := Some count;
                                   delete_error := None |});
          SetShowDeleteConfirm false]
     | err =>
         [SetDeleteResult (Some {| success := false; count := None;
                                   delete_error := Some (error_message err "Delete failed") |})]
     end
  ++ [SetIsDeleting false].

(** [loadCloudFolders], given how [listCloudFolders] settles. *)
Definition loadCloudFolders (listCloudFolders : Outcome (list CloudFolder)) : list Effect :=
  [SetIsLoading true; Invoke list_cloud_folders]
  ++ match listCloudFolders with
     | Resolved folders => [StoreAct (Store.ASetCloudFolders folders)]
     | _ => [ConsoleError "Failed to load cloud folders:"]
     end
  ++ [SetIsLoading false].

(** A handler run on the panel, followed by the render. *)
Definition perform (es : list Effect) (w : World) : World :=
  commit w (run es w).

End SyncPanelUI.
(* ===================================================================== *)
(** * Part II: theorems                                                   *)
(* ===================================================================== *)

(** Case analysis on the eight bits of a character. *)
Ltac ascii_cases c := destruct c as [[] [] [] [] [] [] [] []].

(** Membership in an explicit list, one element at a time. *)
Ltac elem_cases H :=
  repeat (apply elem_of_cons in H as [H|H]; [try done|]);
  try (by apply elem_of_nil in H).

(** ** The status text *)

(** C7. [getStatusText] is total on [SyncStatus]; each plain tag has its
    fixed display string and the error variant [{Error: m}] is shown as
    ["Error: "] followed by [m], unchanged, for every message [m]. *)
Theorem getStatusText_spec :
  Tauri.getStatusText Idle = "Ready"
  ∧ Tauri.getStatusText Scanning = "Scanning files..."
  ∧ Tauri.getStatusText Syncing = "Syncing..."
  ∧ Tauri.getStatusText Paused = "Paused"
  ∧ Tauri.getStatusText Completed = "Completed"
  ∧ (∀ m : string, Tauri.getStatusText (Error m) = "Error: " +:+ m)
  ∧ (∀ m1 m2 : string,
        Tauri.getStatusText (Error m1) = Tauri.getStatusText (Error m2) → m1 = m2).
Proof.
  repeat split; try reflexivity.
  intros m1 m2 H. unfold Tauri.getStatusText in H. simpl in H. by simplify_eq.
Qed.

(** ** The store: selected source folders *)

Section StoreFacts.
Import Store.

Implicit Types (st : AppState) (p q : string).

Lemma setSourceFolders_same st :
  setSourceFolders (selectedSourceFolders st) st = st.
Proof. by destruct st. Qed.

Lemma addSourceFolder_present p st :
  p ∈ selectedSourceFolders st → addSourceFolder p st = st.
Proof.
  intros Hin. unfold addSourceFolder.
  rewrite bool_decide_eq_true_2 by done.
  apply setSourceFolders_same.
Qed.

Lemma addSourceFolder_absent p st :
  p ∉ selectedSourceFolders st →
  selectedSourceFolders (addSourceFolder p st) = selectedSourceFolders st ++ [p].
Proof.
  intros Hout. unfold addSourceFolder.
  by rewrite bool_decide_eq_false_2.
Qed.

Lemma addSourceFolder_elem p st :
  p ∈ selectedSourceFolders (addSourceFolder p st).
Proof.
  destruct (decide (p ∈ selectedSourceFolders st)) as [Hin|Hout].
  - by rewrite addSourceFolder_present.
  - rewrite addSourceFolder_absent by done.
    apply elem_of_app. right. by apply list_elem_of_singleton.
Qed.

Lemma addSourceFolder_NoDup p st :
  NoDup (selectedSourceFolders st) →
  NoDup (selectedSourceFolders (addSourceFolder p st)).
Proof.
  intros Hnd.
  destruct (decide (p ∈ selectedSourceFolders st)) as [Hin|Hout].
  - by rewrite addSourceFolder_present.
  - rewrite addSourceFolder_absent by done.
    apply NoDup_app. split_and!; [done| |apply NoDup_singleton].
    intros x Hx Hx'. apply list_elem_of_singleton in Hx'. by subst.
Qed.

Lemma removeSourceFolder_elem p q st :
  q ∈ selectedSourceFolders (removeSourceFolder p st)
  ↔ q ≠ p ∧ q ∈ selectedSourceFolders st.
Proof. unfold removeSourceFolder; simpl. by rewrite list_elem_of_filter. Qed.

Lemma dispatch_NoDup a st :
  NoDup (selectedSourceFolders st) →
  NoDup (selectedSourceFolders (dispatch a st)).
Proof.
  intros Hnd. destruct a; simpl; try done.
  - by apply addSourceFolder_NoDup.
  - by apply NoDup_filter.
  - apply NoDup_nil_2.
  - apply NoDup_nil_2.
Qed.

Lemma reachable_NoDup st :
  reachable st → NoDup (selectedSourceFolders st).
Proof.
  induction 1 as [|a st _ IH].
  - apply NoDup_nil_2.
  - by apply dispatch_NoDup.
Qed.

Lemma run_reachable acts st : reachable st → reachable (run acts st).
Proof.
  revert st. induction acts as [|a acts IH]; intros st Hr; simpl; [done|].
  apply IH. by constructor.
Qed.

End StoreFacts.

(** C8. The selected source folders never hold a path twice.  The list
    starts empty; [addSourceFolder p] leaves the store as it is when [p] is
    already selected and puts [p] at the end otherwise, so adding twice is
    adding once; [removeSourceFolder p] drops every occurrence of [p] and
    nothing else, keeping the order; and every action of the store takes a
    duplicate-free list to a duplicate-free list, so every reachable state
    has one. *)
Theorem selectedSourceFolders_NoDup :
  selectedSourceFolders Store.initialState = []
  ∧ (∀ (p : string) (st : AppState),
        p ∈ selectedSourceFolders st → Store.addSourceFolder p st = st)
  ∧ (∀ (p : string) (st : AppState),
        p ∉ selectedSourceFolders st →
        selectedSourceFolders (Store.addSourceFolder p st)
        = selectedSourceFolders st ++ [p])
  ∧ (∀ (p : string) (st : AppState),
        Store.addSourceFolder p (Store.addSourceFolder p st)
        = Store.addSourceFolder p st)
  ∧ (∀ (p : string) (st : AppState),
        selectedSourceFolders (Store.removeSourceFolder p st)
        = filter (λ q, q ≠ p) (selectedSourceFolders st)
        ∧ p ∉ selectedSourceFolders (Store.removeSourceFolder p st))
  ∧ (∀ (a : Store.Action) (st : AppState),
        NoDup (selectedSourceFolders st) →
        NoDup (selectedSourceFolders (Store.dispatch a st)))
  ∧ (∀ st : AppState, Store.reachable st → NoDup (selectedSourceFolders st)).
Proof.
  split_and!.
  - reflexivity.
  - apply addSourceFolder_present.
  - apply addSourceFolder_absent.
  - intros p st. apply addSourceFolder_present, addSourceFolder_elem.
  - intros p st. split; [reflexivity|].
    rewrite removeSourceFolder_elem. by intros [? _].
  - apply dispatch_NoDup.
  - apply reachable_NoDup.
Qed.

(** A run of the store on which the invariant of C8 is exercised: two
    folders are added, one of them twice, one is removed and added back. *)
Lemma selectedSourceFolders_NoDup_witness :
  let st := Store.run [Store.AAddSourceFolder "/a"; Store.AAddSourceFolder "/b";
                       Store.AAddSourceFolder "/a"; Store.ARemoveSourceFolder "/a";
                       Store.AAddSourceFolder "/a"] Store.initialState in
  selectedSourceFolders st = ["/b"; "/a"] ∧ NoDup (selectedSourceFolders st).
Proof.
  split; [reflexivity|].
  apply (proj2 (proj2 (proj2 (proj2 (proj2 (proj2 selectedSourceFolders_NoDup)))))).
  apply run_reachable. constructor.
Defined.

(** ** Admin policy *)

Section AdminFacts.
Import Admin.

Lemma authorize_unavailable policy uid :
  blacklist policy = None ∨ whitelist policy = None →
  authorize policy uid = Denied "policy unavailable".
Proof.
  unfold authorize. intros [-> | ->]; [done|].
  by destruct (blacklist policy).
Qed.

Lemma authorize_fetched bl wl uid :
  authorize {| blacklist := Some bl; whitelist := Some wl |} uid
  = if decide (uid ∈ bl) then Denied "blacklisted"
    else if decide (wl = ∅ ∨ uid ∈ wl) then Allowed
    else Denied "not whitelisted".
Proof. reflexivity. Qed.

End AdminFacts.

(** C1. [authorize] fails closed: when either policy object cannot be
    fetched the answer is [Denied "policy unavailable"].  With both
    fetched, a uid on the blacklist is denied whatever the whitelist
    holds; a uid not on the blacklist is allowed when the whitelist is
    empty or holds it, and denied otherwise. *)
Theorem authorize_spec (policy : Admin.PolicyFetch) (uid : string) :
  (Admin.blacklist policy = None ∨ Admin.whitelist policy = None →
     Admin.authorize policy uid = Admin.Denied "policy unavailable")
  ∧ (∀ bl wl : gset string,
       Admin.blacklist policy = Some bl → Admin.whitelist policy = Some wl →
       (uid ∈ bl → Admin.is_denied (Admin.authorize policy uid) = true)
       ∧ (uid ∉ bl → wl = ∅ ∨ uid ∈ wl →
            Admin.authorize policy uid = Admin.Allowed)
       ∧ (uid ∉ bl → wl ≠ ∅ → uid ∉ wl →
            Admin.is_denied (Admin.authorize policy uid) = true)).
Proof.
  split; [apply authorize_unavailable|].
  intros bl wl Hbl Hwl. destruct policy as [b w]; simpl in *; subst.
  rewrite authorize_fetched. split_and!.
  - intros Hin. by rewrite decide_True.
  - intros Hout Hwl. by rewrite decide_False, decide_True.
  - intros Hout Hne Hnw. rewrite decide_False by done.
    rewrite decide_False; [done|]. by intros [?|?].
Qed.

(** The three outcomes of C1 on a policy with one blacklisted and one
    whitelisted uid, and on a failed fetch. *)
Lemma authorize_spec_witness :
  let policy := {| Admin.blacklist := Some {["u_bad"]};
                   Admin.whitelist := Some {["u_good"; "u_bad"]} |} in
  Admin.is_denied (Admin.authorize policy "u_bad") = true
  ∧ Admin.authorize policy "u_good" = Admin.Allowed
  ∧ Admin.is_denied (Admin.authorize policy "u_other") = true
  ∧ Admin.authorize {| Admin.blacklist := None; Admin.whitelist := Some ∅ |} "u_good"
    = Admin.Denied "policy unavailable".
Proof.
  intros policy.
  assert (Hbl : Admin.blacklist policy = Some {["u_bad"]}) by reflexivity.
  assert (Hwl : Admin.whitelist policy = Some {["u_good"; "u_bad"]}) by reflexivity.
  assert (Hne : "u_good" ≠ "u_bad") by discriminate.
  assert (Hne' : "u_other" ≠ "u_bad") by discriminate.
  assert (Hne'' : "u_other" ≠ "u_good") by discriminate.
  split_and!.
  - apply (proj1 (proj2 (authorize_spec policy "u_bad") _ _ Hbl Hwl)).
    by apply elem_of_singleton.
  - apply (proj1 (proj2 (proj2 (authorize_spec policy "u_good") _ _ Hbl Hwl))).
    + by intros ?%elem_of_singleton.
    + right. apply elem_of_union_l. by apply elem_of_singleton.
  - apply (proj2 (proj2 (proj2 (authorize_spec policy "u_other") _ _ Hbl Hwl))).
    + by intros ?%elem_of_singleton.
    + intros Hempty.
      apply (not_elem_of_empty (C := gset string) "u_good").
      rewrite <- Hempty. apply elem_of_union_l. by apply elem_of_singleton.
    + by intros [?%elem_of_singleton|?%elem_of_singleton]%elem_of_union.
  - apply (proj1 (authorize_spec _ "u_good")). by left.
Defined.

(** ** Credential expiry *)

Section ExpiryFacts.
Import Expiry.
Local Open Scope Z_scope.

Variable cfg : Config.

Lemma days_left_floor now :
  SECONDS_PER_DAY * days_left cfg now ≤ expiry cfg - now
    < SECONDS_PER_DAY * (days_left cfg now + 1).
Proof.
  unfold days_left, SECONDS_PER_DAY.
  pose proof (Z.div_mod (expiry cfg - now) 86400 ltac:(lia)) as Hdm.
  pose proof (Z.mod_pos_bound (expiry cfg - now) 86400 ltac:(lia)) as Hb.
  lia.
Qed.

Lemma days_left_neg now : days_left cfg now < 0 ↔ expiry cfg < now.
Proof.
  pose proof (days_left_floor now) as Hf. unfold SECONDS_PER_DAY in Hf. lia.
Qed.

Lemma days_left_antitone now later :
  now ≤ later → days_left cfg later ≤ days_left cfg now.
Proof.
  intros Hle. unfold days_left, SECONDS_PER_DAY.
  apply Z.div_le_mono; lia.
Qed.

Lemma check_expiry_valid now :
  cs_valid (check_expiry cfg now) = true ↔ now ≤ expiry cfg.
Proof.
  simpl. rewrite negb_true_iff, Z.ltb_ge.
  pose proof (days_left_neg now). lia.
Qed.

(** What the banner of the sync panel makes of the status, when the
    configured messages are not empty: red once expired, amber in the last
    thirty days, and no banner before that. *)
Lemma banner_of_check_expiry now :
  expired_message cfg ≠ "" →
  (∀ d, expiring_message cfg d ≠ "") →
  SyncPanel.banner (Some (check_expiry cfg now))
  = if days_left cfg now <? 0 then Some (SyncPanel.red, expired_message cfg)
    else if days_left cfg now <=? 30
         then Some (SyncPanel.amber, expiring_message cfg (days_left cfg now))
         else None.
Proof.
  intros He Hw. unfold SyncPanel.banner, check_expiry, WARNING_DAYS. simpl.
  destruct (days_left cfg now <? 0) eqn:Hneg; simpl.
  - destruct (String.eqb_spec (expired_message cfg) ""); [done|done].
  - destruct (days_left cfg now <=? 30) eqn:Hlate; simpl; [|done].
    destruct (String.eqb_spec (expiring_message cfg (days_left cfg now)) "");
      [by destruct (Hw (days_left cfg now))|done].
Qed.

End ExpiryFacts.

(** C4. For every time [now], [check_expiry] reports the number of whole
    days from [now] to the expiry date, rounded down; the status is
    invalid exactly when that number is negative; it carries a warning
    whenever the number is at most 30, and the warning is the message
    kept for expired credentials exactly when the number is negative
    (provided no countdown message has that wording).  The status is valid
    exactly up to the expiry date, so once invalid it is invalid at every
    later time: [valid] goes from true to false once and never back. *)
Theorem check_expiry_spec (cfg : Expiry.Config) (now : Z) :
  let s := Expiry.check_expiry cfg now in
  (86400 * days_remaining s ≤ Expiry.expiry cfg - now
     < 86400 * (days_remaining s + 1))%Z
  ∧ days_remaining s = ((Expiry.expiry cfg - now) `div` 86400)%Z
  ∧ (cs_valid s = false ↔ (days_remaining s < 0)%Z)
  ∧ ((days_remaining s ≤ 30)%Z → warning s ≠ None)
  ∧ ((∀ d, Expiry.expiring_message cfg d ≠ Expiry.expired_message cfg) →
       (warning s = Some (Expiry.expired_message cfg) ↔ (days_remaining s < 0)%Z))
  ∧ (cs_valid s = true ↔ (now ≤ Expiry.expiry cfg)%Z)
  ∧ (∀ later : Z, (now ≤ later)%Z →
       cs_valid s = false → cs_valid (Expiry.check_expiry cfg later) = false).
Proof.
  intros s. split; [apply days_left_floor|]. split_and!.
  - reflexivity.
  - subst s. simpl. rewrite negb_false_iff. apply Z.ltb_lt.
  - subst s. simpl. unfold Expiry.WARNING_DAYS. intros Hle.
    destruct (Expiry.days_left cfg now <? 0)%Z; [done|].
    rewrite (proj2 (Z.leb_le _ _) Hle). done.
  - intros Hdistinct. subst s. simpl.
    destruct (Expiry.days_left cfg now <? 0)%Z eqn:Hneg.
    + apply Z.ltb_lt in Hneg. done.
    + apply Z.ltb_ge in Hneg. split; [|lia].
      destruct (Expiry.days_left cfg now <=? Expiry.WARNING_DAYS)%Z; [|done].
      intros [= H]. by destruct (Hdistinct _ H).
  - apply check_expiry_valid.
  - intros later Hle Hinv.
    apply not_true_iff_false. apply not_true_iff_false in Hinv.
    rewrite check_expiry_valid. subst s. rewrite check_expiry_valid in Hinv. lia.
Qed.

(** C4 on an expiry date of 28 November 2026, observed ten days and a
    half before, and one second after. *)
Lemma check_expiry_spec_witness :
  let cfg := {| Expiry.expiry := 1795824000;
                Expiry.expiry_text := "2026-11-28";
                Expiry.expired_message := "expired";
                Expiry.expiring_message := λ _, "expiring" |} in
  days_remaining (Expiry.check_expiry cfg 1794916800) = 10%Z
  ∧ warning (Expiry.check_expiry cfg 1794916800) ≠ None
  ∧ warning (Expiry.check_expiry cfg 1795824001) = Some "expired"
  ∧ cs_valid (Expiry.check_expiry cfg 1795824001) = false.
Proof.
  intros cfg.
  pose proof (check_expiry_spec cfg 1794916800) as (_ & _ & _ & Hwarn & _).
  pose proof (check_expiry_spec cfg 1795824001) as (_ & _ & Hinv & _ & Hexp & _ & _).
  split_and!.
  - reflexivity.
  - apply Hwarn. vm_compute. discriminate.
  - apply Hexp; [discriminate|]. vm_compute. reflexivity.
  - apply Hinv. vm_compute. reflexivity.
Defined.

(** ** The sync panel *)

Section SyncPanelFacts.
Import Tauri SyncPanel.

Implicit Types (w : World) (ev : Event) (es : list Effect).

Lemma apply_effect_interval w e :
  interval (local (apply_effect w e)) = interval (local w).
Proof. by destruct e. Qed.

Lemma run_interval es w : interval (local (run es w)) = interval (local w).
Proof.
  unfold run. revert w. induction es as [|e es IH]; intros w; simpl; [done|].
  by rewrite IH, apply_effect_interval.
Qed.

Lemma commit_consistent w w' :
  polling_consistent w →
  interval (local w') = interval (local w) →
  polling_consistent (commit w w').
Proof.
  unfold polling_consistent, commit. intros Hw Hint.
  destruct (Bool.eqb _ _) eqn:Heq; simpl.
  - apply eqb_prop in Heq. by rewrite Hint, Hw, Heq.
  - done.
Qed.

Lemma step_consistent w ev : polling_consistent w → polling_consistent (step w ev).
Proof. intros Hw. apply commit_consistent; [done|apply run_interval]. Qed.

Lemma steps_consistent w evs : polling_consistent w → polling_consistent (steps w evs).
Proof.
  revert w. induction evs as [|ev evs IH]; intros w Hw; simpl; [done|].
  apply IH. by apply step_consistent.
Qed.

Lemma mount_consistent st : polling_consistent (mount st).
Proof. reflexivity. Qed.

Lemma is_terminal_iff s :
  is_terminal s = true ↔ s = Completed ∨ ∃ m, s = Error m.
Proof.
  destruct s; simpl; split; try done; try (intros [?|[? ?]]; done); eauto.
Qed.

Lemma invoked_app es1 es2 : invoked (es1 ++ es2) = invoked es1 ++ invoked es2.
Proof. apply omap_app. Qed.

Lemma invoked_store_acts (f : string → Store.Action) l :
  invoked (map (λ p, StoreAct (f p)) l) = [].
Proof. induction l as [|x l IH]; [done|]. simpl. exact IH. Qed.

Lemma as_truthy_Some a s : as_truthy a = Some s ↔ a = Some s ∧ s ≠ "".
Proof.
  destruct a as [x|]; simpl; [|by split; [|intros []]].
  destruct (String.eqb_spec x "") as [->|Hne].
  - split; [done|]. by intros [[= <-] ?].
  - split; [by intros [= <-]|]. by intros [[= <-] _].
Qed.

Lemma truthy_as_truthy a : truthy a = true ↔ ∃ s, as_truthy a = Some s.
Proof.
  destruct a as [x|]; simpl; [|by split; [|intros []]].
  destruct (String.eqb_spec x ""); simpl; split; try done; eauto.
  by intros [].
Qed.

Lemma handleStartUpload_guard l o c :
  c ∈ invoked (handleStartUpload l o) → c = start_upload l ∧ l ≠ [].
Proof.
  unfold handleStartUpload. destruct l as [|x l]; simpl; [by intros ?%elem_of_nil|].
  destruct o; simpl; intros ->%list_elem_of_singleton; done.
Qed.

Lemma handleStartDownload_guard sc stf o c :
  c ∈ invoked (handleStartDownload sc stf o) →
  ∃ cf tp, c = start_download cf tp ∧ sc = Some cf ∧ stf = Some tp ∧ cf ≠ "" ∧ tp ≠ "".
Proof.
  unfold handleStartDownload.
  destruct (as_truthy sc) as [cf|] eqn:Hc; [|by intros ?%elem_of_nil].
  destruct (as_truthy stf) as [tp|] eqn:Ht; [|by intros ?%elem_of_nil].
  apply as_truthy_Some in Hc as [-> ?]. apply as_truthy_Some in Ht as [-> ?].
  intros Hin. exists cf, tp.
  destruct o; simpl in Hin; apply list_elem_of_singleton in Hin; done.
Qed.

Lemma effects_of_guard w ev c :
  c ∈ invoked (effects_of w ev) → start_guard (store w) c.
Proof.
  destruct ev as [o|o|o| | |o| |m|fs|f|p|p|o]; simpl.
  - destruct (interval (local w)); [|by intros ?%elem_of_nil].
    destruct o as [p| |]; simpl.
    + destruct (is_terminal (status p)); simpl;
        by intros ->%list_elem_of_singleton.
    + by intros ->%list_elem_of_singleton.
    + by intros ->%list_elem_of_singleton.
  - by intros [-> ?]%handleStartUpload_guard.
  - by intros (cf & tp & -> & ? & ? & ? & ?)%handleStartDownload_guard.
  - by intros ->%list_elem_of_singleton.
  - by intros ->%list_elem_of_singleton.
  - destruct o; simpl; by intros ->%list_elem_of_singleton.
  - by intros ?%elem_of_nil.
  - by intros ?%elem_of_nil.
  - unfold handleSelectSourceFolders. rewrite invoked_store_acts.
    by intros ?%elem_of_nil.
  - unfold handleSelectTargetFolder. destruct (as_truthy f); simpl;
      by intros ?%elem_of_nil.
  - by intros ?%elem_of_nil.
  - by intros ?%elem_of_nil.
  - destruct o; simpl; by intros ->%list_elem_of_singleton.
Qed.

Lemma trace_guard w evs c :
  c ∈ trace w evs → ∃ w', start_guard (store w') c.
Proof.
  revert w. induction evs as [|ev evs IH]; intros w; simpl.
  - by intros ?%elem_of_nil.
  - intros [Hin|Hin]%elem_of_app; [|by eapply IH].
    exists w. by eapply effects_of_guard.
Qed.

End SyncPanelFacts.

(** C9. [start_upload] is never sent with an empty list of paths: with no
    source folder selected [handleStartUpload] does nothing at all and the
    start button is disabled, and whenever the command is sent, by the
    handler or anywhere in a run of the panel, its argument is the
    non-empty list of selected folders.  Likewise [start_download] is sent
    only with the selected cloud folder and the selected target folder,
    both present and non-empty. *)
Theorem start_commands_guarded :
  (∀ o : Tauri.Outcome unit, SyncPanel.handleStartUpload [] o = [])
  ∧ (∀ l : list string, SyncPanel.startUpload_disabled l = true ↔ l = [])
  ∧ (∀ (l : list string) (o : Tauri.Outcome unit) (c : Tauri.Command),
       c ∈ SyncPanel.invoked (SyncPanel.handleStartUpload l o) →
       c = Tauri.start_upload l ∧ l ≠ [])
  ∧ (∀ (w : SyncPanel.World) (evs : list SyncPanel.Event) (paths : list string),
       Tauri.start_upload paths ∈ SyncPanel.trace w evs → paths ≠ [])
  ∧ (∀ (sc stf : option string) (o : Tauri.Outcome unit) (c : Tauri.Command),
       c ∈ SyncPanel.invoked (SyncPanel.handleStartDownload sc stf o) →
       ∃ cf tp, c = Tauri.start_download cf tp
                ∧ sc = Some cf ∧ stf = Some tp ∧ cf ≠ "" ∧ tp ≠ "")
  ∧ (∀ (w : SyncPanel.World) (evs : list SyncPanel.Event) (cf tp : string),
       Tauri.start_download cf tp ∈ SyncPanel.trace w evs → cf ≠ "" ∧ tp ≠ "")
  ∧ (∀ sc stf : option string,
       SyncPanel.startDownload_disabled sc stf = false ↔
       ∃ cf tp, sc = Some cf ∧ stf = Some tp ∧ cf ≠ "" ∧ tp ≠ "").
Proof.
  split_and!.
  - done.
  - intros [|x l]; done.
  - apply handleStartUpload_guard.
  - intros w evs paths [w' [_ Hne]]%trace_guard. done.
  - apply handleStartDownload_guard.
  - intros w evs cf tp [w' (_ & _ & ? & ?)]%trace_guard. done.
  - intros sc stf. unfold SyncPanel.startDownload_disabled.
    rewrite orb_false_iff, !negb_false_iff, !truthy_as_truthy.
    setoid_rewrite as_truthy_Some. split.
    + intros [[cf [? ?]] [tp [? ?]]]. exists cf, tp. done.
    + intros (cf & tp & ? & ? & ? & ?). split; eauto.
Qed.

(** C9 on a run: a click on the start button with nothing selected sends
    nothing; after two folders are picked it sends both. *)
Lemma start_commands_guarded_witness :
  let evs := [SyncPanel.ClickStartUpload (Tauri.Resolved ());
              SyncPanel.FoldersPicked ["/a"; "/b"];
              SyncPanel.ClickStartUpload (Tauri.Resolved ())] in
  SyncPanel.trace (SyncPanel.mount Store.initialState) evs
    = [Tauri.start_upload ["/a"; "/b"]]
  ∧ ["/a"; "/b"] ≠ ([] : list string).
Proof.
  intros evs. split; [reflexivity|].
  apply (proj1 (proj2 (proj2 (proj2 start_commands_guarded)))
           (SyncPanel.mount Store.initialState) evs).
  vm_compute. apply list_elem_of_here.
Defined.

(** ** Polling and cancelling *)

Section PollingFacts.
Import Tauri SyncPanel.

Implicit Types (w : World) (ev : Event).

Lemma tick_resolved w p :
  interval (local w) ≠ None →
  run (effects_of w (Tick (Resolved p))) w
  = apply_effect (apply_effect w (SetProgress (Some p)))
      (SetIsSyncing (if is_terminal (status p) then false
                     else isSyncing (local w))).
Proof.
  intros Hint. simpl. destruct (interval (local w)); [|done].
  destruct w as [[] ?]. simpl. by destruct (is_terminal (status p)).
Qed.

Lemma tick_rejected w (o : Outcome SyncProgress) :
  (∀ p, o ≠ Resolved p) → step w (Tick o) = w.
Proof.
  intros Ho. unfold step. simpl.
  destruct (interval (local w)); [|by unfold commit; rewrite eqb_reflx].
  destruct o as [p| |]; [by destruct (Ho p)| |];
    by (simpl; unfold commit; rewrite eqb_reflx).
Qed.

Lemma consistent_syncing w :
  polling_consistent w →
  (interval (local w) = Some POLL_INTERVAL_MS ↔ isSyncing (local w) = true)
  ∧ (interval (local w) = None ↔ isSyncing (local w) = false).
Proof.
  unfold polling_consistent, polling_effect. intros ->.
  by destruct (isSyncing (local w)).
Qed.

End PollingFacts.

(** C5. The polling of the sync panel.  The period of the interval is
    500 ms.  Over every run of the panel an interval is pending exactly
    while [isSyncing] holds.  While syncing, a tick calls
    [get_sync_progress]; when the call resolves with a snapshot the panel
    stores it, and it leaves the syncing state, which clears the interval,
    exactly when the status of the snapshot is [Completed] or an [Error];
    when the call is rejected nothing changes and polling goes on.  With no
    interval pending nothing is polled. *)
Theorem polling_spec :
  SyncPanel.POLL_INTERVAL_MS = 500%N
  ∧ (∀ s : SyncStatus,
       SyncPanel.is_terminal s = true ↔ s = Completed ∨ ∃ m, s = Error m)
  ∧ (∀ (st : AppState) (evs : list SyncPanel.Event),
       let w := SyncPanel.steps (SyncPanel.mount st) evs in
       (SyncPanel.interval (SyncPanel.local w) = Some 500%N
          ↔ SyncPanel.isSyncing (SyncPanel.local w) = true)
       ∧ (SyncPanel.interval (SyncPanel.local w) = None
          ↔ SyncPanel.isSyncing (SyncPanel.local w) = false))
  ∧ (∀ (w : SyncPanel.World) (p : SyncProgress),
       SyncPanel.polling_consistent w →
       SyncPanel.isSyncing (SyncPanel.local w) = true →
       let w' := SyncPanel.step w (SyncPanel.Tick (Tauri.Resolved p)) in
       SyncPanel.trace w [SyncPanel.Tick (Tauri.Resolved p)] = [Tauri.get_sync_progress]
       ∧ SyncPanel.progress (SyncPanel.local w') = Some p
       ∧ (SyncPanel.isSyncing (SyncPanel.local w') = false
          ↔ SyncPanel.is_terminal (status p) = true)
       ∧ (SyncPanel.interval (SyncPanel.local w') = None
          ↔ SyncPanel.is_terminal (status p) = true)
       ∧ SyncPanel.store w' = SyncPanel.store w)
  ∧ (∀ (w : SyncPanel.World) (o : Tauri.Outcome SyncProgress),
       (∀ p, o ≠ Tauri.Resolved p) →
       SyncPanel.step w (SyncPanel.Tick o) = w)
  ∧ (∀ (w : SyncPanel.World) (o : Tauri.Outcome SyncProgress),
       SyncPanel.interval (SyncPanel.local w) = None →
       SyncPanel.trace w [SyncPanel.Tick o] = []
       ∧ SyncPanel.step w (SyncPanel.Tick o) = w).
Proof.
  split_and!.
  - reflexivity.
  - apply is_terminal_iff.
  - intros st evs w. apply consistent_syncing, steps_consistent, mount_consistent.
  - intros w p Hc Hs w'.
    assert (Hint : SyncPanel.interval (SyncPanel.local w) = Some 500%N)
      by by apply consistent_syncing.
    assert (Hc' : SyncPanel.polling_consistent w') by by apply step_consistent.
    assert (Hs' : SyncPanel.isSyncing (SyncPanel.local w')
                  = negb (SyncPanel.is_terminal (status p))).
    { subst w'. unfold SyncPanel.step. rewrite tick_resolved by by rewrite Hint.
      unfold SyncPanel.commit. simpl. rewrite Hs.
      by destruct (SyncPanel.is_terminal (status p)). }
    split_and!.
    + simpl. rewrite Hint. simpl.
      by destruct (SyncPanel.is_terminal (status p)).
    + subst w'. unfold SyncPanel.step. rewrite tick_resolved by by rewrite Hint.
      unfold SyncPanel.commit. simpl.
      by destruct (Bool.eqb _ _).
    + rewrite Hs'. apply negb_false_iff.
    + rewrite (proj2 (consistent_syncing _ Hc')), Hs'. apply negb_false_iff.
    + subst w'. unfold SyncPanel.step. rewrite tick_resolved by by rewrite Hint.
      unfold SyncPanel.commit. simpl.
      by destruct (Bool.eqb _ _).
  - apply tick_rejected.
  - intros w o Hnone. unfold SyncPanel.step. simpl. rewrite Hnone. simpl.
    split; [done|]. unfold SyncPanel.commit. by rewrite eqb_reflx.
Qed.

(** C5 on a run: an upload is started, a tick reads a snapshot in state
    [Syncing] and polling goes on, the next tick reads [Completed] and the
    interval is cleared. *)
Lemma polling_spec_witness :
  let p1 := Engine.with_status Syncing Engine.idle_progress in
  let p2 := Engine.with_status Completed Engine.idle_progress in
  let w0 := SyncPanel.steps (SyncPanel.mount Store.initialState)
              [SyncPanel.FoldersPicked ["/a"];
               SyncPanel.ClickStartUpload (Tauri.Resolved ())] in
  let w1 := SyncPanel.step w0 (SyncPanel.Tick (Tauri.Resolved p1)) in
  let w2 := SyncPanel.step w1 (SyncPanel.Tick (Tauri.Resolved p2)) in
  SyncPanel.interval (SyncPanel.local w0) = Some 500%N
  ∧ SyncPanel.progress (SyncPanel.local w1) = Some p1
  ∧ SyncPanel.interval (SyncPanel.local w1) = Some 500%N
  ∧ SyncPanel.progress (SyncPanel.local w2) = Some p2
  ∧ SyncPanel.interval (SyncPanel.local w2) = None.
Proof.
  intros p1 p2 w0 w1 w2.
  pose proof polling_spec as (_ & _ & _ & Htick & _ & _).
  assert (Hc1 : SyncPanel.polling_consistent w1) by reflexivity.
  destruct (Htick w1 p2 Hc1 eq_refl) as (_ & Hp & _ & Hi & _).
  split_and!; [reflexivity|reflexivity|reflexivity|exact Hp|].
  apply Hi. reflexivity.
Defined.

Section EngineFacts.
Import Engine.

Implicit Types (e : State) (ev : Event).

Lemma cancel_pending_step e ev :
  cancel_requested e = true → worker e ≠ None → is_worker_step ev = false →
  cancel_requested (step e ev) = true ∧ worker (step e ev) = worker e.
Proof.
  intros Hc Hw Hev. destruct ev; simpl in *; try done.
  unfold start. by destruct (worker e) eqn:Hwe.
Qed.

Lemma cancel_pending_steps e evs :
  cancel_requested e = true → worker e ≠ None →
  forallb (λ ev, negb (is_worker_step ev)) evs = true →
  cancel_requested (steps e evs) = true ∧ worker (steps e evs) = worker e.
Proof.
  revert e. induction evs as [|ev evs IH]; intros e Hc Hw Hevs; simpl in *; [done|].
  apply andb_true_iff in Hevs as [Hev Hevs]. apply negb_true_iff in Hev.
  destruct (cancel_pending_step e ev Hc Hw Hev) as [Hc' Hw'].
  destruct (IH (step e ev)) as [Hc'' Hw'']; [done|by rewrite Hw'|done|].
  by rewrite Hc'', Hw''.
Qed.

Lemma cancel_observed e failure :
  cancel_requested e = true → worker e ≠ None →
  worker (worker_step failure e) = None
  ∧ progress (worker_step failure e) = with_status Idle (progress e).
Proof.
  intros Hc Hw. unfold worker_step.
  destruct (worker e) as [plan|]; [|done]. by rewrite Hc.
Qed.

Lemma stopped_step e ev :
  worker e = None → is_start ev = false →
  worker (step e ev) = None ∧ progress (step e ev) = progress e.
Proof.
  intros Hw Hev. destruct ev; simpl in *; try done.
  unfold worker_step. by rewrite Hw.
Qed.

Lemma stopped_steps e evs :
  worker e = None → forallb (λ ev, negb (is_start ev)) evs = true →
  progress (steps e evs) = progress e.
Proof.
  revert e. induction evs as [|ev evs IH]; intros e Hw Hevs; simpl in *; [done|].
  apply andb_true_iff in Hevs as [Hev Hevs]. apply negb_true_iff in Hev.
  destruct (stopped_step e ev Hw Hev) as [Hw' Hp'].
  by rewrite IH, Hp'.
Qed.

End EngineFacts.

(** When [cancel_sync] is rejected the handler stops at the rejection:
    the panel stays as it was and goes on polling. *)
Lemma cancel_rejected_keeps_state (w : SyncPanel.World) (o : Tauri.Outcome unit) :
  (∀ u, o ≠ Tauri.Resolved u) →
  SyncPanel.step w (SyncPanel.ClickCancel o) = w.
Proof.
  intros Ho. unfold SyncPanel.step, SyncPanel.commit.
  destruct o as [u| |]; [by destruct (Ho u)| |]; simpl; by rewrite eqb_reflx.
Qed.

(** C6. Cancelling.  In the panel, once [cancel_sync] has returned the
    cancel handler leaves the syncing state and drops its snapshot, which
    clears the polling interval; the store is not touched.  In the back
    end, [cancel_sync] raises the cancel signal and changes nothing else;
    while a worker is active no command lowers the signal or stops the
    worker; the next step of the worker sees the signal and stops without
    transferring anything, leaving the counters as they are and setting
    the status to [Idle]; and from then on every [get_sync_progress] reads
    [Idle] until a sync is started again. *)
Theorem cancel_spec :
  (∀ w : SyncPanel.World,
     SyncPanel.polling_consistent w →
     let w' := SyncPanel.step w (SyncPanel.ClickCancel (Tauri.Resolved ())) in
     SyncPanel.trace w [SyncPanel.ClickCancel (Tauri.Resolved ())] = [Tauri.cancel_sync]
     ∧ SyncPanel.isSyncing (SyncPanel.local w') = false
     ∧ SyncPanel.progress (SyncPanel.local w') = None
     ∧ SyncPanel.interval (SyncPanel.local w') = None
     ∧ SyncPanel.store w' = SyncPanel.store w)
  ∧ (∀ e : Engine.State,
       Engine.cancel_requested (Engine.cancel_sync e) = true
       ∧ Engine.worker (Engine.cancel_sync e) = Engine.worker e
       ∧ Engine.progress (Engine.cancel_sync e) = Engine.progress e)
  ∧ (∀ (e : Engine.State) (evs : list Engine.Event),
       Engine.cancel_requested e = true → Engine.worker e ≠ None →
       forallb (λ ev, negb (Engine.is_worker_step ev)) evs = true →
       Engine.cancel_requested (Engine.steps e evs) = true
       ∧ Engine.worker (Engine.steps e evs) = Engine.worker e)
  ∧ (∀ (e : Engine.State) (failure : option string),
       Engine.cancel_requested e = true → Engine.worker e ≠ None →
       let e' := Engine.worker_step failure e in
       Engine.worker e' = None
       ∧ status (Engine.get_sync_progress e') = Idle
       ∧ transferred_bytes (Engine.get_sync_progress e')
         = transferred_bytes (Engine.progress e)
       ∧ completed_files (Engine.get_sync_progress e')
         = completed_files (Engine.progress e))
  ∧ (∀ (e : Engine.State) (evs : list Engine.Event),
       Engine.worker e = None → status (Engine.progress e) = Idle →
       forallb (λ ev, negb (Engine.is_start ev)) evs = true →
       status (Engine.get_sync_progress (Engine.steps e evs)) = Idle).
Proof.
  split_and!.
  - intros w Hc w'.
    assert (Hc' : SyncPanel.polling_consistent w') by by apply step_consistent.
    assert (Hs : SyncPanel.isSyncing (SyncPanel.local w') = false).
    { subst w'. unfold SyncPanel.step, SyncPanel.commit. simpl.
      by destruct (Bool.eqb _ _). }
    split_and!; [done|done| |by apply consistent_syncing|].
    + subst w'. unfold SyncPanel.step, SyncPanel.commit. simpl.
      by destruct (Bool.eqb _ _).
    + subst w'. unfold SyncPanel.step, SyncPanel.commit. simpl.
      by destruct (Bool.eqb _ _).
  - done.
  - apply cancel_pending_steps.
  - intros e failure Hc Hw e'.
    destruct (cancel_observed e failure Hc Hw) as [Hw' Hp'].
    subst e'. unfold Engine.get_sync_progress. by rewrite Hp'.
  - intros e evs Hw Hidle Hevs. unfold Engine.get_sync_progress.
    by rewrite stopped_steps.
Qed.

(** C6 on a run: an upload of two files is started and one file goes
    through; the user cancels; the panel resets at once; a pause and a poll
    later the worker takes its next step, stops, and the status is [Idle]. *)
Lemma cancel_spec_witness :
  let e0 := Engine.steps Engine.initial
              [Engine.Start [("a.txt", 100%N); ("b.txt", 200%N)] LocalToCloud;
               Engine.WorkerStep None; Engine.CancelSync] in
  let e1 := Engine.steps e0 [Engine.PauseSync; Engine.GetSyncProgress] in
  let e2 := Engine.worker_step None e1 in
  let w := SyncPanel.steps (SyncPanel.mount Store.initialState)
             [SyncPanel.FoldersPicked ["/a"];
              SyncPanel.ClickStartUpload (Tauri.Resolved ());
              SyncPanel.Tick (Tauri.Resolved (Engine.get_sync_progress e0))] in
  let w' := SyncPanel.step w (SyncPanel.ClickCancel (Tauri.Resolved ())) in
  SyncPanel.isSyncing (SyncPanel.local w) = true
  ∧ SyncPanel.isSyncing (SyncPanel.local w') = false
  ∧ SyncPanel.progress (SyncPanel.local w') = None
  ∧ status (Engine.get_sync_progress e0) = Syncing
  ∧ Engine.cancel_requested e1 = true
  ∧ status (Engine.get_sync_progress e2) = Idle
  ∧ transferred_bytes (Engine.get_sync_progress e2) = 100%N.
Proof.
  intros e0 e1 e2 w w'.
  pose proof cancel_spec as (Hui & _ & Hpend & Hobs & _).
  assert (Hw : SyncPanel.polling_consistent w) by reflexivity.
  destruct (Hui w Hw) as (_ & Hs & Hp & _ & _).
  assert (Hc0 : Engine.cancel_requested e0 = true) by reflexivity.
  assert (Hw0 : Engine.worker e0 ≠ None) by discriminate.
  destruct (Hpend e0 [Engine.PauseSync; Engine.GetSyncProgress] Hc0 Hw0 eq_refl)
    as [Hc1 Hw1].
  assert (Hw1' : Engine.worker e1 ≠ None) by (unfold e1; by rewrite Hw1).
  destruct (Hobs e1 None Hc1 Hw1') as (_ & Hidle & Hbytes & _).
  split_and!; [reflexivity|exact Hs|exact Hp|reflexivity|exact Hc1|exact Hidle|].
  etrans; [exact Hbytes|reflexivity].
Defined.

(** ** License keys *)

Section StringFacts.
Import Crypto.
Local Arguments String.append !_ _ / : simpl nomatch.

Lemma append_assoc (a b c : string) : (a +:+ b) +:+ c = a +:+ (b +:+ c).
Proof. induction a as [|x a IH]; simpl; [done|]. by rewrite IH. Qed.

Lemma append_length (a b : string) :
  String.length (a +:+ b) = (String.length a + String.length b)%nat.
Proof. induction a as [|x a IH]; simpl; [done|]. by rewrite IH. Qed.

Lemma strip_prefix_app p r : strip_prefix p (p +:+ r) = Some r.
Proof.
  induction p as [|a p IH]; simpl; [done|]. by rewrite Ascii.eqb_refl.
Qed.

Lemma strip_prefix_inv p s r : strip_prefix p s = Some r → s = p +:+ r.
Proof.
  revert s. induction p as [|a p IH]; intros s; simpl.
  - by intros [= ->].
  - destruct s as [|b s]; [done|].
    destruct (Ascii.eqb_spec a b) as [->|]; [|done].
    intros H. by rewrite (IH _ H).
Qed.

Lemma unsnoc_snoc s c : unsnoc (s +:+ String c EmptyString) = Some (s, c).
Proof.
  induction s as [|x s IH]; [done|].
  change (unsnoc (String x (s +:+ String c EmptyString)) = Some (String x s, c)).
  simpl. rewrite IH. by destruct s.
Qed.

Lemma unsnoc_inv s b c : unsnoc s = Some (b, c) → s = b +:+ String c EmptyString.
Proof.
  revert b. induction s as [|x s IH]; intros b; [done|].
  simpl. destruct s as [|y s].
  - by intros [= <- <-].
  - destruct (unsnoc (String y s)) as [[b' l]|]; [|done].
    intros [= <- <-]. simpl. by rewrite <- (IH b' eq_refl).
Qed.

End StringFacts.

Section HexFacts.
Import Crypto.
Local Arguments String.append !_ _ / : simpl nomatch.
Local Open Scope N_scope.

Lemma hex_value_digit n : n < 16 → hex_value (hex_digit n) = Some n.
Proof.
  intros Hn.
  assert (Hcases : n = 0 ∨ n = 1 ∨ n = 2 ∨ n = 3 ∨ n = 4 ∨ n = 5 ∨ n = 6 ∨ n = 7
                   ∨ n = 8 ∨ n = 9 ∨ n = 10 ∨ n = 11 ∨ n = 12 ∨ n = 13
                   ∨ n = 14 ∨ n = 15) by lia.
  repeat (destruct Hcases as [->|Hcases]; [reflexivity|]). by subst.
Qed.

Lemma hex_value_inv c n : hex_value c = Some n → n < 16 ∧ hex_digit n = c.
Proof.
  ascii_cases c; vm_compute; intros [= <-]; done.
Qed.

Lemma hex_decode_byte b s :
  hex_decode (hex_byte b +:+ s) = cons b <$> hex_decode s.
Proof.
  pose proof (Byte.to_N_bounded b) as Hb.
  unfold hex_byte. simpl.
  rewrite !hex_value_digit by (try apply N.mod_lt; try apply N.Div0.div_lt_upper_bound; lia).
  replace (16 * (Byte.to_N b / 16) + Byte.to_N b mod 16) with (Byte.to_N b)
    by (rewrite (N.div_mod (Byte.to_N b) 16) at 1; lia).
  rewrite Byte.of_to_N. by destruct (hex_decode s).
Qed.

Lemma hex_decode_encode bs : hex_decode (hex_encode bs) = Some bs.
Proof.
  induction bs as [|b bs IH]; [done|].
  change (hex_encode (b :: bs)) with (hex_byte b +:+ hex_encode bs).
  by rewrite hex_decode_byte, IH.
Qed.

Lemma hex_decode_inv_fuel (k : nat) s bs :
  (String.length s ≤ k)%nat → hex_decode s = Some bs → hex_encode bs = s.
Proof.
  revert s bs. induction k as [|k IH]; intros s bs Hlen.
  - destruct s; [|simpl in Hlen; lia]. by intros [= <-].
  - destruct s as [|h [|l s]]; [by intros [= <-]|done|].
    simpl. destruct (hex_value h) as [a|] eqn:Ha; [|done].
    destruct (hex_value l) as [b|] eqn:Hb; [|done].
    destruct (Byte.of_N (16 * a + b)) as [x|] eqn:Hx; [|done].
    destruct (hex_decode s) as [bs'|] eqn:Hs; [|done].
    intros [= <-]. simpl.
    apply hex_value_inv in Ha as [Ha <-]. apply hex_value_inv in Hb as [Hb <-].
    apply Byte.to_of_N in Hx. rewrite Hx.
    replace ((16 * a + b) / 16) with a
      by (apply N.div_unique with b; lia).
    replace ((16 * a + b) mod 16) with b
      by (apply N.mod_unique with a; lia).
    do 2 f_equal. apply IH; [simpl in Hlen; lia|done].
Qed.

Lemma hex_decode_inv s bs : hex_decode s = Some bs → hex_encode bs = s.
Proof. by apply (hex_decode_inv_fuel (String.length s)). Qed.

End HexFacts.

Section JsonFacts.
Import Crypto.
Local Arguments String.append !_ _ / : simpl nomatch.

Lemma parse_char_escape c r : parse_char (escape_char c +:+ r) = Some (c, r).
Proof. ascii_cases c; reflexivity. Qed.

(** An escaped character is never empty and never starts with a quote. *)
Lemma escape_char_head c r :
  ∃ c0 r0, escape_char c +:+ r = String c0 r0
           ∧ Ascii.eqb c0 quote = false
           ∧ (String.length r < String.length (String c0 r0))%nat.
Proof.
  ascii_cases c;
    (eexists _, _; split; [reflexivity|split; [reflexivity|simpl; lia]]).
Qed.

Lemma parse_char_unicode r :
  parse_char (String backslash (String "u" r))
  = match r with
    | String z1 (String z2 (String h (String l r''))) =>
        if Ascii.eqb z1 "0" && Ascii.eqb z2 "0" then
          match hex_value h, hex_value l with
          | Some a, Some b =>
              if ((16 * a + b <? 32)%N && negb (has_short_escape (16 * a + b)))
              then Some (ascii_of_N (16 * a + b), r'')
              else None
          | _, _ => None
          end
        else None
    | _ => None
    end.
Proof. reflexivity. Qed.

Lemma escape_char_control (a b : N) :
  (a < 16)%N → (b < 16)%N →
  ((16 * a + b <? 32)%N && negb (has_short_escape (16 * a + b))) = true →
  escape_char (ascii_of_N (16 * a + b))
  = String backslash ("u00" +:+ String (hex_digit a) (String (hex_digit b) EmptyString)).
Proof.
  intros Ha Hb Hv. apply andb_true_iff in Hv as [Hlt Hshort].
  apply N.ltb_lt in Hlt.
  assert (Ha' : a = 0%N ∨ a = 1%N) by lia.
  assert (Hb' : (b = 0 ∨ b = 1 ∨ b = 2 ∨ b = 3 ∨ b = 4 ∨ b = 5 ∨ b = 6 ∨ b = 7
                 ∨ b = 8 ∨ b = 9 ∨ b = 10 ∨ b = 11 ∨ b = 12 ∨ b = 13
                 ∨ b = 14 ∨ b = 15)%N) by lia.
  clear Ha Hb Hlt.
  destruct Ha' as [-> | ->];
    repeat (destruct Hb' as [->|Hb']; [first [reflexivity|discriminate Hshort]|]);
    subst; first [reflexivity|discriminate Hshort].
Qed.

Lemma parse_char_inv s c r : parse_char s = Some (c, r) → s = escape_char c +:+ r.
Proof.
  destruct s as [|c0 s1]; [done|].
  destruct (Ascii.eqb_spec c0 backslash) as [->|Hnb].
  - destruct s1 as [|e s2]; [done|].
    destruct (Ascii.eqb_spec e "u") as [->|Hnu].
    + rewrite parse_char_unicode.
      destruct s2 as [|z1 [|z2 [|h [|l r'']]]]; try done.
      destruct (Ascii.eqb_spec z1 "0") as [->|]; [|done].
      destruct (Ascii.eqb_spec z2 "0") as [->|]; [|done].
      simpl andb.
      destruct (hex_value h) as [a|] eqn:Ha; [|done].
      destruct (hex_value l) as [b|] eqn:Hb; [|done].
      apply hex_value_inv in Ha as [Ha <-]. apply hex_value_inv in Hb as [Hb <-].
      destruct (_ && _) eqn:Hv; [|done].
      intros [= <- <-]. by rewrite escape_char_control.
    + ascii_cases e;
        try (by destruct Hnu); intros H; vm_compute in H;
        try discriminate H; injection H as <- <-; reflexivity.
  - ascii_cases c0;
      try (by destruct Hnb); intros H; vm_compute in H;
      try discriminate H; injection H as <- <-; reflexivity.
Qed.

Lemma parse_char_shorter s c r :
  parse_char s = Some (c, r) → (String.length r < String.length s)%nat.
Proof.
  intros ->%parse_char_inv.
  destruct (escape_char_head c r) as (c0 & r0 & -> & _ & Hlen). done.
Qed.

Lemma parse_string_body_step fuel c r :
  Ascii.eqb c quote = false →
  parse_string_body (S fuel) (String c r)
  = match parse_char (String c r) with
    | Some (x, r') =>
        match parse_string_body fuel r' with
        | Some (v, rest) => Some (String x v, rest)
        | None => None
        end
    | None => None
    end.
Proof. intros Hq. cbn [parse_string_body]. by rewrite Hq. Qed.

Lemma parse_string_body_escape v rest fuel :
  (String.length (escape v +:+ String quote rest) ≤ fuel)%nat →
  parse_string_body fuel (escape v +:+ String quote rest) = Some (v, rest).
Proof.
  revert fuel. induction v as [|c v IH]; intros fuel Hlen.
  - destruct fuel as [|fuel]; [simpl in Hlen; lia|]. reflexivity.
  - change (escape (String c v)) with (escape_char c +:+ escape v) in *.
    rewrite append_assoc in *.
    destruct (escape_char_head c (escape v +:+ String quote rest))
      as (c0 & r0 & Heq & Hq & Hl).
    destruct fuel as [|fuel]; [rewrite Heq in Hlen; simpl in Hlen; lia|].
    rewrite Heq, parse_string_body_step by done.
    rewrite <- Heq, parse_char_escape, IH; [done|].
    rewrite Heq in Hlen. simpl in Hlen, Hl. lia.
Qed.

Lemma parse_string_body_inv fuel s v rest :
  parse_string_body fuel s = Some (v, rest) → s = escape v +:+ String quote rest.
Proof.
  revert s v. induction fuel as [|fuel IH]; intros s v; [done|].
  destruct s as [|c r]; [done|].
  destruct (Ascii.eqb_spec c quote) as [->|Hnq].
  - by intros [= <- <-].
  - rewrite parse_string_body_step by by apply Ascii.eqb_neq.
    destruct (parse_char (String c r)) as [[x r']|] eqn:Hpc; [|done].
    destruct (parse_string_body fuel r') as [[v' rest']|] eqn:Hrec; [|done].
    intros [= <- <-].
    apply parse_char_inv in Hpc. apply IH in Hrec. subst r'.
    rewrite Hpc. change (escape (String x v')) with (escape_char x +:+ escape v').
    by rewrite append_assoc.
Qed.

Lemma parse_string_escape v rest :
  parse_string (escape v +:+ String quote rest) = Some (v, rest).
Proof. by apply parse_string_body_escape. Qed.

Lemma parse_string_inv s v rest :
  parse_string s = Some (v, rest) → s = escape v +:+ String quote rest.
Proof. apply parse_string_body_inv. Qed.

End JsonFacts.

Section PayloadFacts.
Import Crypto.
Local Arguments String.append !_ _ / : simpl nomatch.
Local Arguments parse_string : simpl never.
Local Arguments strip_prefix : simpl never.
Local Arguments unsnoc : simpl never.
Local Arguments parse_Z : simpl never.
Local Arguments print_Z : simpl never.
Local Arguments escape : simpl never.
Local Arguments hex_decode : simpl never.
Local Arguments hex_encode : simpl never.
Local Arguments of_json : simpl never.
Local Arguments to_json : simpl never.

Lemma norm_not_nil d : norm d ≠ Pos Nil ∧ norm d ≠ Neg Nil.
Proof.
  destruct d as [d|d]; simpl; unfold unorm.
  - by destruct (nzhead d).
  - by destruct (nzhead d).
Qed.

Lemma to_int_not_nil z : Z.to_int z ≠ Pos Nil ∧ Z.to_int z ≠ Neg Nil.
Proof.
  pose proof (DecimalZ.to_of (Z.to_int z)) as H.
  rewrite DecimalZ.of_to in H. rewrite H. apply norm_not_nil.
Qed.

Lemma parse_Z_print z : parse_Z (print_Z z) = Some z.
Proof.
  unfold parse_Z, print_Z.
  destruct (to_int_not_nil z) as [Hp Hn].
  rewrite NilZero.isi by done.
  by rewrite DecimalZ.of_to, String.eqb_refl.
Qed.

Lemma parse_Z_inv s z : parse_Z s = Some z → print_Z z = s.
Proof.
  unfold parse_Z. destruct (NilZero.int_of_string s) as [i|]; [|done].
  destruct (String.eqb_spec (print_Z (Z.of_int i)) s) as [Heq|]; [|done].
  by intros [= <-].
Qed.

Lemma of_json_to_json p : of_json (to_json p) = Some p.
Proof.
  destruct p as [u n z]. unfold of_json, to_json.
  cbn [uid name created].
  rewrite strip_prefix_app. cbn [mbind option_bind].
  rewrite parse_string_escape. cbn [mbind option_bind].
  rewrite strip_prefix_app. cbn [mbind option_bind].
  rewrite parse_string_escape. cbn [mbind option_bind].
  rewrite strip_prefix_app. cbn [mbind option_bind].
  rewrite unsnoc_snoc. cbn [mbind option_bind].
  rewrite Ascii.eqb_refl.
  by rewrite parse_Z_print.
Qed.

Lemma of_json_inv s p : of_json s = Some p → to_json p = s.
Proof.
  unfold of_json. intros H.
  destruct (strip_prefix open_uid s) as [r1|] eqn:H1; simpl in H; [|done].
  destruct (parse_string r1) as [[u r2]|] eqn:H2; simpl in H; [|done].
  destruct (strip_prefix open_name r2) as [r3|] eqn:H3; simpl in H; [|done].
  destruct (parse_string r3) as [[n r4]|] eqn:H4; simpl in H; [|done].
  destruct (strip_prefix open_created r4) as [r5|] eqn:H5; simpl in H; [|done].
  destruct (unsnoc r5) as [[digits last]|] eqn:H6; simpl in H; [|done].
  destruct (Ascii.eqb_spec last "}") as [->|]; [|done].
  destruct (parse_Z digits) as [z|] eqn:H7; simpl in H; [|done].
  injection H as <-.
  apply strip_prefix_inv in H1, H3, H5. apply parse_string_inv in H2, H4.
  apply unsnoc_inv in H6. apply parse_Z_inv in H7.
  subst. reflexivity.
Qed.

End PayloadFacts.

Section LicenseKeyFacts.
Import Crypto.
Local Arguments String.append !_ _ / : simpl nomatch.
Local Arguments strip_prefix : simpl never.
Local Arguments hex_decode : simpl never.
Local Arguments hex_encode : simpl never.
Local Arguments of_json : simpl never.
Local Arguments to_json : simpl never.

Variable C : Aead.
Variable master_key : list byte.

Lemma decrypt_license_key key_string payload :
  aead_binding C →
  decrypt C master_key key_string = Some payload →
  is_license_key C master_key key_string.
Proof.
  intros Hb. unfold decrypt. intros H.
  destruct (strip_prefix KEY_PREFIX key_string) as [encoded|] eqn:H1;
    simpl in H; [|done].
  destruct (hex_decode encoded) as [raw|] eqn:H2; simpl in H; [|done].
  destruct (length raw <? NONCE_LEN)%nat eqn:Hlen; [done|].
  apply Nat.ltb_ge in Hlen.
  destruct (open C master_key (take NONCE_LEN raw) (drop NONCE_LEN raw))
    as [plaintext|] eqn:H3; simpl in H; [|done].
  apply strip_prefix_inv in H1. apply hex_decode_inv in H2.
  apply Hb in H3. apply of_json_inv in H.
  exists (take NONCE_LEN raw), payload. split.
  - rewrite length_take. lia.
  - unfold encrypt. rewrite H, list_byte_of_string_of_list_byte, <- H3.
    by rewrite take_drop, H2.
Qed.

Lemma not_license_key key_string :
  aead_binding C →
  ¬ is_license_key C master_key key_string →
  decrypt C master_key key_string = None.
Proof.
  intros Hb Hnot.
  destruct (decrypt C master_key key_string) as [payload|] eqn:Hd; [|done].
  destruct Hnot. by eapply decrypt_license_key.
Qed.

Lemma decrypt_without_prefix key_string :
  strip_prefix KEY_PREFIX key_string = None →
  decrypt C master_key key_string = None.
Proof. unfold decrypt. by intros ->. Qed.

End LicenseKeyFacts.

Section ShiftCipherFacts.
Import ShiftCipher.
Local Open Scope N_scope.

Lemma to_N_byte_of_N n : Byte.to_N (byte_of_N n) = n mod 256.
Proof.
  unfold byte_of_N.
  destruct (Byte.of_N (n mod 256)) as [b|] eqn:Hb.
  - by apply Byte.to_of_N.
  - apply Byte.of_N_None_iff in Hb.
    pose proof (N.mod_lt n 256 ltac:(lia)). lia.
Qed.

Lemma byte_of_N_to_N b : byte_of_N (Byte.to_N b) = b.
Proof.
  unfold byte_of_N. pose proof (Byte.to_N_bounded b).
  rewrite N.mod_small by lia. by rewrite Byte.of_to_N.
Qed.

Lemma to_N_inj a b : Byte.to_N a = Byte.to_N b → a = b.
Proof. intros H. by rewrite <- (byte_of_N_to_N a), H, byte_of_N_to_N. Qed.

Lemma unshift_shift p b : p < 256 → unshift p (shift p b) = b.
Proof.
  intros Hp. apply to_N_inj. unfold unshift, shift.
  rewrite !to_N_byte_of_N, (N.mod_small p) by lia.
  pose proof (Byte.to_N_bounded b) as Hb.
  destruct (N.lt_ge_cases (Byte.to_N b + p) 256) as [Hs|Hl].
  - rewrite (N.mod_small (Byte.to_N b + p)) by lia.
    symmetry. apply N.mod_unique with 1; lia.
  - replace ((Byte.to_N b + p) mod 256) with (Byte.to_N b + p - 256)
      by (apply N.mod_unique with 1; lia).
    symmetry. apply N.mod_unique with 0; lia.
Qed.

Lemma shift_unshift p b : p < 256 → shift p (unshift p b) = b.
Proof.
  intros Hp. apply to_N_inj. unfold unshift, shift.
  rewrite !to_N_byte_of_N, (N.mod_small p) by lia.
  pose proof (Byte.to_N_bounded b) as Hb.
  destruct (N.lt_ge_cases (Byte.to_N b + (256 - p)) 256) as [Hs|Hl].
  - rewrite (N.mod_small (Byte.to_N b + (256 - p))) by lia.
    symmetry. apply N.mod_unique with 1; lia.
  - replace ((Byte.to_N b + (256 - p)) mod 256) with (Byte.to_N b - p)
      by (apply N.mod_unique with 1; lia).
    symmetry. apply N.mod_unique with 0; lia.
Qed.

Lemma pad_bound key nonce : pad key nonce < 256.
Proof. unfold pad. apply N.mod_lt. lia. Qed.

Lemma length_tag key nonce m : length (tag key nonce m) = TAG_LEN.
Proof. apply length_replicate. Qed.

Lemma cipher_correct : Crypto.aead_correct cipher.
Proof.
  intros key nonce m _ _. simpl. unfold open, seal.
  rewrite length_app, length_map, length_tag.
  destruct (_ <? _)%nat eqn:Hlt; [apply Nat.ltb_lt in Hlt; lia|].
  replace (length m + TAG_LEN - TAG_LEN)%nat with (length (map (shift (pad key nonce)) m))
    by (rewrite length_map; lia).
  rewrite take_app_length, drop_app_length.
  rewrite map_map.
  rewrite (map_ext _ id), map_id by (intros b; apply unshift_shift, pad_bound).
  by rewrite bool_decide_eq_true_2.
Qed.

Lemma cipher_binding : Crypto.aead_binding cipher.
Proof.
  intros key nonce sealed m. simpl. unfold open, seal.
  destruct (_ <? _)%nat; [done|].
  destruct (bool_decide_reflect
    (drop (length sealed - TAG_LEN) sealed
     = tag key nonce (map (unshift (pad key nonce))
                          (take (length sealed - TAG_LEN) sealed)))) as [Htag|];
    [|done].
  intros [= <-]. rewrite <- Htag, map_map.
  rewrite (map_ext _ id), map_id by (intros b; apply shift_unshift, pad_bound).
  by rewrite take_drop.
Qed.

End ShiftCipherFacts.

(** C2. Decrypting an encrypted payload gives the payload back: for every
    payload, every master key of 32 bytes and every nonce of 12 bytes that
    [encrypt] may draw, over any cipher that opens what it sealed. *)
Theorem decrypt_encrypt_roundtrip (C : Crypto.Aead) (master_key nonce : list byte)
    (payload : Crypto.KeyPayload) :
  Crypto.aead_correct C →
  length master_key = Crypto.KEY_LEN →
  length nonce = Crypto.NONCE_LEN →
  Crypto.decrypt C master_key (Crypto.encrypt C master_key nonce payload)
  = Some payload.
Proof.
  intros Hc Hk Hn. unfold Crypto.decrypt, Crypto.encrypt.
  rewrite strip_prefix_app. cbn [mbind option_bind].
  rewrite hex_decode_encode. cbn [mbind option_bind].
  rewrite length_app, Hn.
  destruct (_ <? _)%nat eqn:Hlt; [apply Nat.ltb_lt in Hlt; lia|].
  rewrite <- Hn at 1 2. rewrite take_app_length, drop_app_length.
  rewrite Hc by done. cbn [mbind option_bind].
  by rewrite string_of_list_byte_of_string, of_json_to_json.
Qed.

(** C2 on the shift cipher, for a payload whose name needs escaping. *)
Lemma decrypt_encrypt_roundtrip_witness :
  let payload := {| Crypto.uid := "u_abc123def456";
                    Crypto.name := "Ann " +:+ String Crypto.quote "Q";
                    Crypto.created := 1764331200 |} in
  Crypto.aead_correct ShiftCipher.cipher
  ∧ length ShiftCipher.sample_key = Crypto.KEY_LEN
  ∧ length ShiftCipher.sample_nonce = Crypto.NONCE_LEN
  ∧ Crypto.decrypt ShiftCipher.cipher ShiftCipher.sample_key
      (Crypto.encrypt ShiftCipher.cipher ShiftCipher.sample_key
         ShiftCipher.sample_nonce payload)
    = Some payload.
Proof.
  intros payload.
  split_and!; [apply cipher_correct|reflexivity|reflexivity|].
  apply (decrypt_encrypt_roundtrip ShiftCipher.cipher ShiftCipher.sample_key
           ShiftCipher.sample_nonce payload);
    [apply cipher_correct|reflexivity|reflexivity].
Defined.

(** ** The key entry form *)

Section KeyEntryFacts.
Import Tauri KeyEntry.

Implicit Types (st : State) (w : World).

Variable validateKey : string → Outcome ValidationResult.
Variable now_ms : Z.

Local Abbreviation placeholder_user := (KeyEntry.placeholder_user now_ms).
Local Abbreviation accepted_name := (KeyEntry.accepted_name validateKey).

Lemma handleSubmit_blank st :
  trim (key st) = "" →
  handleSubmit validateKey now_ms st
  = [PreventDefault; SetError (Some "Please enter your sync key")].
Proof. intros Hb. unfold handleSubmit. by rewrite Hb. Qed.

Lemma handleSubmit_accepted st n :
  trim (key st) ≠ "" → accepted_name st = Some n →
  handleSubmit validateKey now_ms st
  = [PreventDefault; SetIsLoading true; SetError None;
     Invoke (validate_key (trim (key st)));
     StoreAct (Store.ASetUser (Some (placeholder_user n)));
     StoreAct (Store.ASetScreen main);
     SetIsLoading false].
Proof.
  intros Hb Ha. unfold handleSubmit, accepted_name in *.
  destruct (String.eqb_spec (trim (key st)) ""); [done|].
  destruct (validateKey (trim (key st))) as [r| |]; [|done|done].
  by rewrite Ha.
Qed.

Lemma handleSubmit_refused st :
  trim (key st) ≠ "" → accepted_name st = None →
  ∃ msg,
    handleSubmit validateKey now_ms st
    = [PreventDefault; SetIsLoading true; SetError None;
       Invoke (validate_key (trim (key st)));
       SetError (Some msg); SetIsLoading false]
    ∧ msg = match validateKey (trim (key st)) with
            | Resolved result => or_default (Types.error result) "Invalid key"
            | err => error_message err "Validation failed"
            end.
Proof.
  intros Hb Ha. unfold handleSubmit, accepted_name in *.
  destruct (String.eqb_spec (trim (key st)) ""); [done|].
  destruct (validateKey (trim (key st))) as [r| |]; [|by eexists..].
  rewrite Ha. by eexists.
Qed.

Lemma accepted_name_Some st n :
  accepted_name st = Some n ↔
  ∃ r, validateKey (trim (key st)) = Resolved r
       ∧ valid r = true ∧ user_name r = Some n ∧ n ≠ "".
Proof.
  unfold accepted_name.
  destruct (validateKey (trim (key st))) as [r| |]; [|split; [done|by intros (? & ? & _)]..].
  destruct (valid r) eqn:Hv.
  - rewrite as_truthy_Some. split.
    + intros [? ?]. by exists r.
    + by intros (? & [= <-] & _ & ? & ?).
  - split; [done|]. intros (? & [= <-] & ? & _). congruence.
Qed.

Lemma store_act_accepted st a :
  StoreAct a ∈ handleSubmit validateKey now_ms st →
  ∃ n, accepted_name st = Some n
       ∧ (a = Store.ASetUser (Some (placeholder_user n)) ∨ a = Store.ASetScreen main).
Proof.
  destruct (String.eqb_spec (trim (key st)) "") as [Hb|Hb].
  - rewrite handleSubmit_blank by done. intros Hin.
    apply elem_of_cons in Hin as [?|Hin]; [done|].
    by apply list_elem_of_singleton in Hin.
  - destruct (accepted_name st) as [n|] eqn:Ha.
    + rewrite (handleSubmit_accepted st n) by done. intros Hin.
      exists n. split; [done|]. elem_cases Hin.
      * left. by injection Hin.
      * right. by injection Hin.
    + destruct (handleSubmit_refused st Hb Ha) as (msg & -> & _). intros Hin.
      elem_cases Hin.
Qed.

Lemma or_default_nonempty a d : d ≠ "" → or_default a d ≠ "".
Proof.
  intros Hd. destruct a as [s|]; simpl; [|done].
  by destruct (String.eqb_spec s "").
Qed.

Lemma submit_refused w :
  (trim (key (local w)) = "" ∨ accepted_name (local w) = None) →
  store (submit validateKey now_ms w) = store w
  ∧ ∃ msg, error (local (submit validateKey now_ms w)) = Some msg.
Proof.
  unfold submit.
  destruct (String.eqb_spec (trim (key (local w))) "") as [Hb|Hb].
  - intros _. rewrite handleSubmit_blank by done. simpl. eauto.
  - intros [?|Ha]; [done|].
    destruct (handleSubmit_refused _ Hb Ha) as (msg & -> & _). simpl. eauto.
Qed.

Lemma submit_accepted w n :
  trim (key (local w)) ≠ "" → accepted_name (local w) = Some n →
  store (submit validateKey now_ms w)
  = Store.setScreen main (Store.setUser (Some (placeholder_user n)) (store w))
  ∧ error (local (submit validateKey now_ms w)) = None.
Proof.
  intros Hb Ha. unfold submit. by rewrite (handleSubmit_accepted _ n).
Qed.

End KeyEntryFacts.

(** C3. A key that [encrypt] cannot have produced is answered by
    [validate_key] with [{valid: false, error: "Invalid key"}], a value
    and not a failure.  When the form is submitted with such a key (after
    trimming) the handler leaves the store, and so the key-entry screen,
    as it is, and sets a non-empty error message.  However [validate_key]
    settles, the handler calls [setUser] or [setScreen] only on a result
    with [valid = true] and a [user_name] that is not [null]; and when the
    command is rejected the handler catches it and sets an error. *)
Theorem invalid_key_rejected (C : Crypto.Aead) (master_key : list byte)
    (policy : Admin.PolicyFetch) (cfg : Expiry.Config) (now : Z) (k : string) :
  Crypto.aead_binding C →
  ¬ Crypto.is_license_key C master_key k →
  let validateKey :=
    λ key, Tauri.Resolved (Commands.validate_key C master_key policy cfg now key) in
  Commands.validate_key C master_key policy cfg now k
  = {| valid := false; user_name := None; error := Some "Invalid key" |}
  ∧ (∀ (now_ms : Z) (w : KeyEntry.World),
       KeyEntry.trim (KeyEntry.key (KeyEntry.local w)) = k →
       let w' := KeyEntry.submit validateKey now_ms w in
       KeyEntry.store w' = KeyEntry.store w
       ∧ (∃ msg, KeyEntry.error (KeyEntry.local w') = Some msg ∧ msg ≠ "")
       ∧ ∀ a, KeyEntry.StoreAct a
              ∉ KeyEntry.handleSubmit validateKey now_ms (KeyEntry.local w))
  ∧ (∀ (v : string → Tauri.Outcome ValidationResult) (now_ms : Z)
       (st : KeyEntry.State) (a : Store.Action),
       KeyEntry.StoreAct a ∈ KeyEntry.handleSubmit v now_ms st →
       ∃ r n, v (KeyEntry.trim (KeyEntry.key st)) = Tauri.Resolved r
              ∧ valid r = true ∧ user_name r = Some n)
  ∧ (∀ (v : string → Tauri.Outcome ValidationResult) (now_ms : Z)
       (w : KeyEntry.World),
       (∀ r, v (KeyEntry.trim (KeyEntry.key (KeyEntry.local w))) ≠ Tauri.Resolved r) →
       KeyEntry.store (KeyEntry.submit v now_ms w) = KeyEntry.store w
       ∧ ∃ msg, KeyEntry.error (KeyEntry.local (KeyEntry.submit v now_ms w)) = Some msg).
Proof.
  intros Hbind Hnot validateKey.
  assert (Hres : Commands.validate_key C master_key policy cfg now k
                 = Commands.rejected "Invalid key").
  { unfold Commands.validate_key. by rewrite not_license_key. }
  split_and!.
  - exact Hres.
  - intros now_ms w Hk w'.
    assert (Hno : KeyEntry.accepted_name validateKey (KeyEntry.local w) = None).
    { unfold KeyEntry.accepted_name, validateKey. by rewrite Hk, Hres. }
    split_and!.
    + apply submit_refused. by right.
    + subst w'. unfold KeyEntry.submit.
      destruct (String.eqb_spec (KeyEntry.trim (KeyEntry.key (KeyEntry.local w))) "")
        as [Hb|Hb].
      * rewrite handleSubmit_blank by done. simpl. by eexists.
      * destruct (handleSubmit_refused validateKey now_ms _ Hb Hno) as (msg & -> & ->).
        simpl. eexists. split; [done|].
        unfold validateKey. rewrite Hk, Hres. done.
    + intros a (n & Ha & _)%store_act_accepted. congruence.
  - intros v now_ms st a (n & Ha & _)%store_act_accepted.
    apply accepted_name_Some in Ha as (r & ? & ? & ? & _). by exists r, n.
  - intros v now_ms w Hrej. apply submit_refused. right.
    unfold KeyEntry.accepted_name.
    destruct (v _) as [r| |] eqn:Hv; [by destruct (Hrej r)|done|done].
Qed.

(** C3 for the key ["garbage"], typed with blanks around it. *)
Lemma invalid_key_rejected_witness :
  let policy := {| Admin.blacklist := Some ∅; Admin.whitelist := Some ∅ |} in
  let cfg := {| Expiry.expiry := 1795824000; Expiry.expiry_text := "2026-11-28";
                Expiry.expired_message := "expired";
                Expiry.expiring_message := λ _, "expiring" |} in
  let w := {| KeyEntry.local := {| KeyEntry.key := " garbage ";
                                   KeyEntry.isLoading := false;
                                   KeyEntry.error := None |};
              KeyEntry.store := Store.setScreen key_entry Store.initialState |} in
  let w' := KeyEntry.submit
              (λ key, Tauri.Resolved
                 (Commands.validate_key ShiftCipher.cipher ShiftCipher.sample_key
                    policy cfg 1764331200 key)) 0 w in
  Commands.validate_key ShiftCipher.cipher ShiftCipher.sample_key policy cfg
    1764331200 "garbage"
  = {| valid := false; user_name := None; error := Some "Invalid key" |}
  ∧ screen (KeyEntry.store w') = key_entry
  ∧ KeyEntry.error (KeyEntry.local w') = Some "Invalid key".
Proof.
  intros policy cfg w w'.
  assert (Hnot : ¬ Crypto.is_license_key ShiftCipher.cipher ShiftCipher.sample_key
                     "garbage").
  { intros (nonce & payload & _ & Heq). discriminate Heq. }
  destruct (invalid_key_rejected ShiftCipher.cipher ShiftCipher.sample_key policy cfg
              1764331200 "garbage" cipher_binding Hnot) as (Hres & Hui & _ & _).
  destruct (Hui 0%Z w eq_refl) as (Hstore & _ & _).
  split_and!; [exact Hres| |reflexivity].
  change (screen (KeyEntry.store w') = screen (KeyEntry.store w)).
  by rewrite <- Hstore.
Defined.

Section HomeFacts.
Import Tauri Home.

Lemma init_set_user isTauri c g u :
  StoreAct (Store.ASetUser u) ∈ init isTauri c g →
  ∃ p, isTauri = true ∧ c = Resolved true ∧ g = Resolved (Some p) ∧ u = Some p.
Proof.
  unfold init. destruct isTauri; simpl.
  - destruct c as [[]| |]; destruct g as [[p|]| |]; intros Hin; elem_cases Hin.
    exists p. by injection Hin as <-.
  - intros Hin. elem_cases Hin.
Qed.

End HomeFacts.

(** C10, as the code has it.  After a [validate_key] that answers [valid]
    with a non-empty name, the form stores the user with an empty [uid],
    the name of the answer, and [created] the double [Date.now() / 1000],
    and shows the main screen.  When the answer has no name, or an empty
    one, the form stores nothing, whether or not it is [valid], and shows
    the error of the answer or ["Invalid key"].  Every user the form ever
    stores has the shape above, so nothing of the decrypted payload but the
    name reaches it.  The payload itself is stored by the start-up effect
    alone, which stores exactly what [get_user_info] returned. *)
Theorem stored_user_is_placeholder :
  (∀ (v : string → Tauri.Outcome ValidationResult) (now_ms : Z)
     (w : KeyEntry.World) (r : ValidationResult) (n : string),
     KeyEntry.trim (KeyEntry.key (KeyEntry.local w)) ≠ "" →
     v (KeyEntry.trim (KeyEntry.key (KeyEntry.local w))) = Tauri.Resolved r →
     valid r = true → user_name r = Some n → n ≠ "" →
     let w' := KeyEntry.submit v now_ms w in
     user (KeyEntry.store w')
     = Some {| uid := ""; name := n; created := KeyEntry.seconds_of_ms now_ms |}
     ∧ screen (KeyEntry.store w') = main)
  ∧ (∀ (v : string → Tauri.Outcome ValidationResult) (now_ms : Z)
       (w : KeyEntry.World) (r : ValidationResult),
       KeyEntry.trim (KeyEntry.key (KeyEntry.local w)) ≠ "" →
       v (KeyEntry.trim (KeyEntry.key (KeyEntry.local w))) = Tauri.Resolved r →
       user_name r = None ∨ user_name r = Some "" →
       let w' := KeyEntry.submit v now_ms w in
       KeyEntry.store w' = KeyEntry.store w
       ∧ KeyEntry.error (KeyEntry.local w')
         = Some (or_default (Types.error r) "Invalid key"))
  ∧ (∀ (v : string → Tauri.Outcome ValidationResult) (now_ms : Z)
       (st : KeyEntry.State) (u : option KeyPayload),
       KeyEntry.StoreAct (Store.ASetUser u) ∈ KeyEntry.handleSubmit v now_ms st →
       ∃ r n, v (KeyEntry.trim (KeyEntry.key st)) = Tauri.Resolved r
              ∧ user_name r = Some n
              ∧ u = Some {| uid := ""; name := n;
                            created := KeyEntry.seconds_of_ms now_ms |})
  ∧ (∀ (p : KeyPayload) (st : AppState),
       let st' := Home.run (Home.init true (Tauri.Resolved true)
                              (Tauri.Resolved (Some p))) st in
       user st' = Some p ∧ screen st' = main)
  ∧ (∀ (isTauri : bool) (c : Tauri.Outcome bool)
       (g : Tauri.Outcome (option KeyPayload)) (u : option KeyPayload),
       Home.StoreAct (Store.ASetUser u) ∈ Home.init isTauri c g →
       ∃ p, g = Tauri.Resolved (Some p) ∧ u = Some p).
Proof.
  split_and!.
  - intros v now_ms w r n Hb Hv Hvalid Hname Hn w'.
    assert (Ha : KeyEntry.accepted_name v (KeyEntry.local w) = Some n).
    { apply accepted_name_Some. by exists r. }
    destruct (submit_accepted v now_ms w n Hb Ha) as [Hstore _].
    subst w'. by rewrite Hstore.
  - intros v now_ms w r Hb Hv Hname w'.
    assert (Ha : KeyEntry.accepted_name v (KeyEntry.local w) = None).
    { unfold KeyEntry.accepted_name. rewrite Hv.
      destruct Hname as [-> | ->]; by destruct (valid r). }
    destruct (handleSubmit_refused v now_ms _ Hb Ha) as (msg & Heff & ->).
    subst w'. unfold KeyEntry.submit. rewrite Heff, Hv. done.
  - intros v now_ms st u (n & Ha & Hu)%store_act_accepted.
    apply accepted_name_Some in Ha as (r & ? & _ & ? & _).
    exists r, n. split_and!; [done|done|].
    destruct Hu as [Hu|Hu]; [by injection Hu|done].
  - done.
  - intros isTauri c g u (p & _ & _ & ? & ?)%init_set_user. by exists p.
Qed.

(** C10 on a submission: the back end answers with the name of the key
    holder and the form stores a user with that name, no uid, and the
    clock reading 1764331200.5 s. *)
Lemma stored_user_is_placeholder_witness :
  let v := λ _ : string,
    Tauri.Resolved {| valid := true; user_name := Some "Ann"; error := None |} in
  let w := {| KeyEntry.local := {| KeyEntry.key := "EXAD-00";
                                   KeyEntry.isLoading := false;
                                   KeyEntry.error := None |};
              KeyEntry.store := Store.setScreen key_entry Store.initialState |} in
  user (KeyEntry.store (KeyEntry.submit v 1764331200500 w))
  = Some {| uid := ""; name := "Ann"; created := Qmake 3528662401 2 |}
  ∧ screen (KeyEntry.store (KeyEntry.submit v 1764331200500 w)) = main.
Proof.
  intros v w.
  apply (proj1 stored_user_is_placeholder v 1764331200500%Z w
           {| valid := true; user_name := Some "Ann"; error := None |} "Ann");
    [discriminate|reflexivity|reflexivity|reflexivity|discriminate].
Defined.

(** C10 does not hold of every valid answer: when [validate_key] answers
    [valid] with an empty name, the form stores no user, stays on the
    key-entry screen and shows ["Invalid key"]. *)
Lemma valid_answer_without_name_stores_nothing :
  let r := {| valid := true; user_name := Some ""; error := None |} in
  let w := {| KeyEntry.local := {| KeyEntry.key := "EXAD-00";
                                   KeyEntry.isLoading := false;
                                   KeyEntry.error := None |};
              KeyEntry.store := Store.setScreen key_entry Store.initialState |} in
  let w' := KeyEntry.submit (λ _, Tauri.Resolved r) 1764331200500 w in
  valid r = true
  ∧ user (KeyEntry.store w') = None
  ∧ (¬ ∃ u, user (KeyEntry.store w') = Some u ∧ uid u = "")
  ∧ screen (KeyEntry.store w') = key_entry
  ∧ KeyEntry.error (KeyEntry.local w') = Some "Invalid key".
Proof.
  intros r w w'. split_and!; try reflexivity.
  intros (u & Hu & _). discriminate Hu.
Qed.

(** The clock reading is the rounded quotient, not the exact one: at
    1764331200123 ms the stored [created] is 7400141410000699 / 2^22,
    just below 1764331200.123. *)
Lemma seconds_of_ms_rounds :
  KeyEntry.seconds_of_ms 1764331200123 = Qmake 7400141410000699 4194304
  ∧ (KeyEntry.seconds_of_ms 1764331200123 < Qmake 1764331200123 1000)%Q
  ∧ KeyEntry.seconds_of_ms 1764331200500 = Qmake 3528662401 2.
Proof. split_and!; [reflexivity|reflexivity|reflexivity]. Qed.

(** Such an answer is what the back end gives for a license key issued
    with an empty name: [validate_key] accepts the key, and the form shows
    ["Invalid key"] and stores no user. *)
Lemma key_without_name_is_refused :
  let policy := {| Admin.blacklist := Some ∅; Admin.whitelist := Some ∅ |} in
  let cfg := {| Expiry.expiry := 1795824000; Expiry.expiry_text := "2026-11-28";
                Expiry.expired_message := "expired";
                Expiry.expiring_message := λ _, "expiring" |} in
  let k := Crypto.encrypt ShiftCipher.cipher ShiftCipher.sample_key
             ShiftCipher.sample_nonce
             {| Crypto.uid := "u_1"; Crypto.name := ""; Crypto.created := 5 |} in
  let validateKey := λ key, Tauri.Resolved
        (Commands.validate_key ShiftCipher.cipher ShiftCipher.sample_key
           policy cfg 1764331200 key) in
  let w := {| KeyEntry.local := {| KeyEntry.key := k;
                                   KeyEntry.isLoading := false;
                                   KeyEntry.error := None |};
              KeyEntry.store := Store.setScreen key_entry Store.initialState |} in
  let w' := KeyEntry.submit validateKey 1764331200500 w in
  validateKey k
  = Tauri.Resolved {| valid := true; user_name := Some ""; error := None |}
  ∧ user (KeyEntry.store w') = None
  ∧ screen (KeyEntry.store w') = key_entry
  ∧ KeyEntry.error (KeyEntry.local w') = Some "Invalid key".
Proof. intros policy cfg k validateKey w w'. by split_and!; vm_compute. Qed.

(* ===================================================================== *)
(** * Part III: further properties of the front end                       *)
(* ===================================================================== *)

(** ** The store, continued *)

Section StoreMore.
Import Store.

Implicit Types (st : AppState) (p q : string) (l : list string).

Lemma filter_ne_snoc p l : p ∉ l → filter (λ q, q ≠ p) (l ++ [p]) = l.
Proof.
  intros Hp. rewrite filter_app.
  rewrite (filter_cons_False (λ q, q ≠ p)) by (intros H; by apply H).
  rewrite filter_nil, app_nil_r.
  induction l as [|x l IH]; [done|].
  apply not_elem_of_cons in Hp as [Hx Hl].
  rewrite filter_cons_True by done. by rewrite IH.
Qed.

Lemma run_app acts1 acts2 st : run (acts1 ++ acts2) st = run acts2 (run acts1 st).
Proof. apply foldl_app. Qed.

End StoreMore.

(** X1. Removing a folder that was just added to a selection that did not
    hold it gives the store back as it was; adding a folder that was just
    removed puts it at the end of what is left. *)
Theorem add_remove_source_folder (p : string) (st : AppState) :
  (p ∉ selectedSourceFolders st →
     Store.removeSourceFolder p (Store.addSourceFolder p st) = st)
  ∧ selectedSourceFolders (Store.addSourceFolder p (Store.removeSourceFolder p st))
    = filter (λ q, q ≠ p) (selectedSourceFolders st) ++ [p].
Proof.
  split.
  - intros Hp. unfold Store.removeSourceFolder.
    rewrite addSourceFolder_absent by done.
    rewrite filter_ne_snoc by done.
    unfold Store.addSourceFolder, Store.setSourceFolders. by destruct st.
  - apply addSourceFolder_absent.
    rewrite removeSourceFolder_elem. by intros [? _].
Qed.

Lemma add_remove_source_folder_witness :
  let st := Store.run [Store.AAddSourceFolder "/a"; Store.AAddSourceFolder "/b"]
                      Store.initialState in
  Store.removeSourceFolder "/c" (Store.addSourceFolder "/c" st) = st.
Proof.
  intros st. apply (proj1 (add_remove_source_folder "/c" st)).
  intros Hin. elem_cases Hin.
Defined.

(** X2. [reset] forgets everything: whatever actions came before it, the
    store after a run that contains a [reset] is the store that the actions
    after the reset make of the initial state. *)
Theorem reset_forgets (before after : list Store.Action) (st : AppState) :
  Store.run (before ++ Store.AReset :: after) st = Store.run after Store.initialState.
Proof.
  rewrite run_app. unfold Store.run at 1. simpl. reflexivity.
Qed.

(** X3. The display text determines the status: two statuses with the same
    text are the same status, error message included. *)
Theorem getStatusText_inj (s1 s2 : SyncStatus) :
  Tauri.getStatusText s1 = Tauri.getStatusText s2 → s1 = s2.
Proof.
  destruct s1, s2; unfold Tauri.getStatusText; simpl; intros H;
    try done; try discriminate H.
  by simplify_eq.
Qed.

Lemma getStatusText_inj_witness :
  Tauri.getStatusText (Error "disk full") = "Error: disk full"
  ∧ Error ("disk" +:+ " full") = Error "disk full".
Proof.
  split; [reflexivity|].
  apply (getStatusText_inj (Error ("disk" +:+ " full")) (Error "disk full")).
  reflexivity.
Defined.

(** ** Picking folders *)

Section FolderFacts.
Import Tauri SyncPanel.

Implicit Types (w : World) (fs : list string).

Lemma run_app_effects es1 es2 w :
  SyncPanel.run (es1 ++ es2) w = SyncPanel.run es2 (SyncPanel.run es1 w).
Proof. apply foldl_app. Qed.

Lemma run_select_cons f fs w :
  SyncPanel.run (handleSelectSourceFolders (f :: fs)) w
  = SyncPanel.run (handleSelectSourceFolders fs)
      {| local := local w; store := Store.addSourceFolder f (store w) |}.
Proof. reflexivity. Qed.

Lemma run_select_local fs w :
  local (SyncPanel.run (handleSelectSourceFolders fs) w) = local w.
Proof.
  revert w. induction fs as [|f fs IH]; intros w; [done|].
  by rewrite run_select_cons, IH.
Qed.

Lemma run_select_elem fs w p :
  p ∈ selectedSourceFolders (store (SyncPanel.run (handleSelectSourceFolders fs) w))
  ↔ p ∈ selectedSourceFolders (store w) ∨ p ∈ fs.
Proof.
  revert w. induction fs as [|f fs IH]; intros w.
  - change (SyncPanel.run (handleSelectSourceFolders []) w) with w.
    split; [by left|]. intros [?|Hin]; [done|by apply elem_of_nil in Hin].
  - rewrite run_select_cons, IH. cbn [store].
    rewrite elem_of_cons.
    destruct (decide (f ∈ selectedSourceFolders (store w))) as [Hf|Hf].
    + rewrite addSourceFolder_present by done. split; [tauto|].
      intros [?|[->|?]]; tauto.
    + rewrite addSourceFolder_absent, elem_of_app, list_elem_of_singleton by done.
      tauto.
Qed.

Lemma run_select_prefix fs w :
  selectedSourceFolders (store w)
  `prefix_of` selectedSourceFolders (store (SyncPanel.run (handleSelectSourceFolders fs) w)).
Proof.
  revert w. induction fs as [|f fs IH]; intros w; [done|].
  rewrite run_select_cons. etrans; [|apply IH]. cbn [store].
  destruct (decide (f ∈ selectedSourceFolders (store w))) as [Hf|Hf].
  - by rewrite addSourceFolder_present.
  - rewrite addSourceFolder_absent by done. by apply prefix_app_r.
Qed.

End FolderFacts.

(** X4. Adding the folders the dialog returned.  After
    [folders.forEach(addSourceFolder)] the selection holds exactly the
    folders it held before and the ones picked; the old selection is still
    there, in its order, at the front; and the component's own state is
    not touched.  A dismissed dialog or an empty path gives no folders and
    changes nothing. *)
Theorem folders_picked (r : Format.OpenResult) (w : SyncPanel.World) :
  let fs := Format.selectFolders r in
  let w' := SyncPanel.run (SyncPanel.handleSelectSourceFolders fs) w in
  (∀ p, p ∈ selectedSourceFolders (SyncPanel.store w')
        ↔ p ∈ selectedSourceFolders (SyncPanel.store w) ∨ p ∈ fs)
  ∧ selectedSourceFolders (SyncPanel.store w)
    `prefix_of` selectedSourceFolders (SyncPanel.store w')
  ∧ SyncPanel.local w' = SyncPanel.local w
  ∧ (r = Format.OpenNull ∨ r = Format.OpenPath "" ∨ r = Format.OpenPaths [] → w' = w).
Proof.
  intros fs w'. split_and!.
  - intros p. apply run_select_elem.
  - apply run_select_prefix.
  - apply run_select_local.
  - intros [-> | [-> | ->]]; reflexivity.
Qed.

Lemma folders_picked_witness :
  let w := SyncPanel.steps (SyncPanel.mount Store.initialState)
             [SyncPanel.FoldersPicked ["/a"; "/b"]] in
  selectedSourceFolders
    (SyncPanel.store
       (SyncPanel.run (SyncPanel.handleSelectSourceFolders
                         (Format.selectFolders (Format.OpenPaths ["/b"; "/c"; "/c"]))) w))
  = ["/a"; "/b"; "/c"]
  ∧ SyncPanel.run (SyncPanel.handleSelectSourceFolders
                     (Format.selectFolders Format.OpenNull)) w = w.
Proof.
  intros w. split; [reflexivity|].
  apply (proj2 (proj2 (proj2 (folders_picked Format.OpenNull w)))). by left.
Defined.

(** ** Start-up and key entry, continued *)

(** X6. Where the start-up effect leaves the app, started on the loading
    screen.  It shows the main screen exactly when it runs inside Tauri,
    a key is stored and [get_user_info] returns a user, who is then the
    stored user.  It stays on the loading screen exactly when one of its
    two commands is rejected.  Otherwise it shows the key-entry screen.
    Outside Tauri it sends no command at all. *)
Theorem init_screen (isTauri : bool) (c : Tauri.Outcome bool)
    (g : Tauri.Outcome (option KeyPayload)) (st : AppState) :
  screen st = loading →
  let st' := Home.run (Home.init isTauri c g) st in
  (screen st' = main
     ↔ isTauri = true ∧ c = Tauri.Resolved true ∧ ∃ p, g = Tauri.Resolved (Some p))
  ∧ (∀ p, isTauri = true → c = Tauri.Resolved true → g = Tauri.Resolved (Some p) →
       user st' = Some p)
  ∧ (screen st' = loading
       ↔ isTauri = true
         ∧ ((∀ b, c ≠ Tauri.Resolved b)
            ∨ (c = Tauri.Resolved true ∧ ∀ u, g ≠ Tauri.Resolved u)))
  ∧ (isTauri = false → ∀ cmd, Home.Invoke cmd ∉ Home.init isTauri c g).
Proof.
  intros Hl st'. subst st'.
  destruct isTauri.
  - destruct c as [[]| |]; [destruct g as [[p|]| |]| | |];
      simpl; rewrite ?Hl; split_and!; try done.
    all: try (split; [done|]).
    all: try (intros ? _ _ [= <-]; done).
    all: try (by intros (_ & [= ?] & _)).
    all: try (by intros (_ & _ & ? & [= ?])).
    all: try (by intros (_ & ? & ?)).
    all: try (split; [by eauto|done]).
    all: try (intros (_ & [H|[? H]]);
              [first [by destruct (H true)|by destruct (H false)]
              |first [done|by destruct (H (Some p))|by destruct (H None)]]).
    all: try (by intros _; split; [done|]; first [left; intros ?|right]).
    all: try (split; [done|]; intros _; split; [done|]; right; split; [done|];
              by intros ?).
    all: try (split; [|done]; intros _; split; [done|]; by left).
  - simpl. split_and!.
    + split; [done|by intros (? & _)].
    + done.
    + split; [done|by intros (? & _)].
    + intros _ cmd Hin. elem_cases Hin.
Qed.

Lemma init_screen_witness :
  let p := {| uid := "u_1"; name := "Ann"; created := 5 |} in
  let st' := Home.run (Home.init true (Tauri.Resolved true) (Tauri.Resolved (Some p)))
               Store.initialState in
  screen st' = main ∧ user st' = Some p
  ∧ screen (Home.run (Home.init true (Tauri.RejectedOther) (Tauri.Resolved (Some p)))
              Store.initialState) = loading.
Proof.
  intros p st'.
  destruct (init_screen true (Tauri.Resolved true) (Tauri.Resolved (Some p))
              Store.initialState eq_refl) as (Hmain & Huser & _ & _).
  destruct (init_screen true Tauri.RejectedOther (Tauri.Resolved (Some p))
              Store.initialState eq_refl) as (_ & _ & Hload & _).
  split_and!.
  - apply Hmain. split_and!; [done|done|by exists p].
  - by apply Huser.
  - apply Hload. split; [done|]. left. by intros b.
Defined.

Section SubmitFacts.
Import Tauri KeyEntry.

Lemma run_app_key es1 es2 (w : World) :
  KeyEntry.run (es1 ++ es2) w = KeyEntry.run es2 (KeyEntry.run es1 w).
Proof. apply foldl_app. Qed.

Lemma run_key_unchanged es (w : World) : key (local (KeyEntry.run es w)) = key (local w).
Proof.
  unfold KeyEntry.run. revert w. induction es as [|e es IH]; intros w; simpl; [done|].
  rewrite IH. by destruct e.
Qed.

Lemma submit_isLoading v now_ms (w : World) :
  trim (key (local w)) ≠ "" → isLoading (local (submit v now_ms w)) = false.
Proof.
  intros Hb. unfold submit.
  destruct (accepted_name v (local w)) as [n|] eqn:Ha.
  - by rewrite (handleSubmit_accepted v now_ms _ n).
  - by destruct (handleSubmit_refused v now_ms _ Hb Ha) as (msg & -> & _).
Qed.

End SubmitFacts.

(** X7. What a submission of the key form sends.  A blank key, or one of
    white space only, never reaches the back end and leaves the loading
    flag alone; any other key is sent once, trimmed, in a [validate_key],
    and whatever the answer, or the failure, the loading flag is off when
    the handler ends.  The text in the input is never changed. *)
Theorem submit_sends (v : string → Tauri.Outcome ValidationResult) (now_ms : Z)
    (w : KeyEntry.World) :
  let k := KeyEntry.trim (KeyEntry.key (KeyEntry.local w)) in
  let w' := KeyEntry.submit v now_ms w in
  (∀ c, KeyEntry.Invoke c ∈ KeyEntry.handleSubmit v now_ms (KeyEntry.local w)
        ↔ k ≠ "" ∧ c = Tauri.validate_key k)
  ∧ (k = "" → KeyEntry.isLoading (KeyEntry.local w')
              = KeyEntry.isLoading (KeyEntry.local w))
  ∧ (k ≠ "" → KeyEntry.isLoading (KeyEntry.local w') = false)
  ∧ KeyEntry.key (KeyEntry.local w') = KeyEntry.key (KeyEntry.local w).
Proof.
  intros k w'. split_and!.
  - intros c. destruct (String.eqb_spec k "") as [Hb|Hb].
    + rewrite handleSubmit_blank by done. split; [|by intros [? _]].
      intros Hin. elem_cases Hin.
    + destruct (KeyEntry.accepted_name v (KeyEntry.local w)) as [n|] eqn:Ha.
      * rewrite (handleSubmit_accepted v now_ms _ n) by done. split.
        -- intros Hin. elem_cases Hin. split; [done|]. by injection Hin.
        -- intros [_ ->]. do 3 apply list_elem_of_further. apply list_elem_of_here.
      * destruct (handleSubmit_refused v now_ms _ Hb Ha) as (msg & -> & _). split.
        -- intros Hin. elem_cases Hin. split; [done|]. by injection Hin.
        -- intros [_ ->]. do 3 apply list_elem_of_further. apply list_elem_of_here.
  - intros Hb. subst w'. unfold KeyEntry.submit. by rewrite handleSubmit_blank.
  - apply submit_isLoading.
  - apply run_key_unchanged.
Qed.

Lemma submit_sends_witness :
  let v := λ _ : string, Tauri.RejectedError "offline" in
  let w := {| KeyEntry.local := {| KeyEntry.key := "  EXAD-1f ";
                                   KeyEntry.isLoading := false;
                                   KeyEntry.error := None |};
              KeyEntry.store := Store.initialState |} in
  let w0 := {| KeyEntry.local := {| KeyEntry.key := NBSP +:+ NBSP;
                                    KeyEntry.isLoading := false;
                                    KeyEntry.error := None |};
               KeyEntry.store := Store.initialState |} in
  KeyEntry.Invoke (Tauri.validate_key "EXAD-1f")
    ∈ KeyEntry.handleSubmit v 0 (KeyEntry.local w)
  ∧ KeyEntry.isLoading (KeyEntry.local (KeyEntry.submit v 0 w)) = false
  ∧ (∀ c, KeyEntry.Invoke c ∉ KeyEntry.handleSubmit v 0 (KeyEntry.local w0)).
Proof.
  intros v w w0.
  destruct (submit_sends v 0%Z w) as (Hinv & _ & Hload & _).
  destruct (submit_sends v 0%Z w0) as (Hinv0 & _ & _ & _).
  split_and!.
  - apply Hinv. split; [discriminate|reflexivity].
  - apply Hload. discriminate.
  - intros c Hin. apply Hinv0 in Hin as [Hne _]. by apply Hne.
Defined.

(** A license key pasted with a no-break space after it and an ideographic
    space before it is sent without them, and logs in. *)
Lemma key_with_nbsp_logs_in :
  let policy := {| Admin.blacklist := Some ∅; Admin.whitelist := Some ∅ |} in
  let cfg := {| Expiry.expiry := 1795824000; Expiry.expiry_text := "2026-11-28";
                Expiry.expired_message := "expired";
                Expiry.expiring_message := λ _, "expiring" |} in
  let k := Crypto.encrypt ShiftCipher.cipher ShiftCipher.sample_key
             ShiftCipher.sample_nonce
             {| Crypto.uid := "u_1"; Crypto.name := "Ann"; Crypto.created := 5 |} in
  let validateKey := λ key, Tauri.Resolved
        (Commands.validate_key ShiftCipher.cipher ShiftCipher.sample_key
           policy cfg 1764331200 key) in
  let w := {| KeyEntry.local := {| KeyEntry.key := IDEOGRAPHIC_SPACE +:+ k +:+ NBSP;
                                   KeyEntry.isLoading := false;
                                   KeyEntry.error := None |};
              KeyEntry.store := Store.setScreen key_entry Store.initialState |} in
  let w' := KeyEntry.submit validateKey 1764331200500 w in
  KeyEntry.trim (KeyEntry.key (KeyEntry.local w)) = k
  ∧ KeyEntry.Invoke (Tauri.validate_key k)
      ∈ KeyEntry.handleSubmit validateKey 1764331200500 (KeyEntry.local w)
  ∧ screen (KeyEntry.store w') = main
  ∧ user (KeyEntry.store w')
    = Some {| uid := ""; name := "Ann"; created := Qmake 3528662401 2 |}.
Proof.
  intros policy cfg k validateKey w w'.
  split_and!; [reflexivity| |reflexivity|reflexivity].
  vm_compute. do 3 apply list_elem_of_further. apply list_elem_of_here.
Qed.

(** ** Trimming *)

Section TrimFacts.
Import KeyEntry.
Local Arguments String.append !_ _ / : simpl nomatch.

Implicit Types (s r ws : string).

Lemma space2_not_space1 c1 c2 : is_space2 c1 c2 = true → is_space1 c1 = false.
Proof.
  unfold is_space2, is_space1. intros [H1 _]%andb_true_iff.
  apply N.eqb_eq in H1. by rewrite H1.
Qed.

Lemma space3_not_shorter c1 c2 c3 :
  is_space3 c1 c2 c3 = true → is_space1 c1 = false ∧ is_space2 c1 c2 = false.
Proof.
  unfold is_space3, is_space2, is_space1. intros H.
  assert (Hc : (N_of_ascii c1 = 225 ∨ N_of_ascii c1 = 226
                ∨ N_of_ascii c1 = 227 ∨ N_of_ascii c1 = 239)%N).
  { repeat (apply orb_true_iff in H as [H|H]);
      repeat (apply andb_true_iff in H as [H _]); apply N.eqb_eq in H; tauto. }
  destruct Hc as [-> | [-> | [-> | ->]]]; done.
Qed.

(** The three shapes of an encoded white space code point. *)
Lemma is_space_inv ws :
  is_space ws = true →
  (∃ c1, ws = String c1 "" ∧ is_space1 c1 = true)
  ∨ (∃ c1 c2, ws = String c1 (String c2 "")
              ∧ is_space1 c1 = false ∧ is_space2 c1 c2 = true)
  ∨ (∃ c1 c2 c3, ws = String c1 (String c2 (String c3 ""))
                 ∧ is_space1 c1 = false ∧ is_space2 c1 c2 = false
                 ∧ is_space3 c1 c2 c3 = true).
Proof.
  destruct ws as [|c1 [|c2 [|c3 [|c4 ws]]]]; simpl; intros H; try done.
  - left. by exists c1.
  - right; left. exists c1, c2. split_and!; [done| |done].
    by eapply space2_not_space1.
  - right; right. exists c1, c2, c3.
    destruct (space3_not_shorter _ _ _ H). done.
Qed.

Lemma starts_with_space_app ws r :
  is_space ws = true → starts_with_space (ws +:+ r) = true.
Proof.
  intros [(c1 & -> & H1)|[(c1 & c2 & -> & _ & H2)|(c1 & c2 & c3 & -> & _ & _ & H3)]]%is_space_inv;
    simpl.
  - by rewrite H1.
  - rewrite H2. apply orb_true_r.
  - rewrite H3. by rewrite !orb_true_r.
Qed.

Lemma trim_start_space ws r :
  is_space ws = true → trim_start (ws +:+ r) = trim_start r.
Proof.
  intros [(c1 & -> & H1)|[(c1 & c2 & -> & H1 & H2)|(c1 & c2 & c3 & -> & H1 & H2 & H3)]]%is_space_inv;
    simpl.
  - by rewrite H1.
  - by rewrite H1, H2.
  - by rewrite H1, H2, H3.
Qed.

Lemma trim_start_fixed s : starts_with_space s = false → trim_start s = s.
Proof.
  destruct s as [|c1 [|c2 [|c3 r]]]; simpl; [done|..].
  - rewrite orb_false_r. by intros ->.
  - rewrite orb_false_r. intros [-> ->]%orb_false_iff. done.
  - intros [-> [-> ->]%orb_false_iff]%orb_false_iff. done.
Qed.

(** What [trim_start] removes is white space, and what it leaves does not
    start with any. *)
Lemma trim_start_split_fuel (n : nat) s :
  (String.length s ≤ n)%nat →
  (∃ a, blank a ∧ s = a +:+ trim_start s)
  ∧ starts_with_space (trim_start s) = false.
Proof.
  revert s. induction n as [|n IH]; intros s Hn.
  { destruct s; [|simpl in Hn; lia]. split; [|done].
    exists "". split; [constructor|done]. }
  destruct (starts_with_space s) eqn:Hs.
  2:{ rewrite trim_start_fixed by done. split; [|done].
      exists "". split; [constructor|done]. }
  destruct s as [|c1 r1]; [done|]. simpl in Hs, Hn.
  destruct (is_space1 c1) eqn:H1.
  { destruct (IH r1 ltac:(lia)) as [(a & Ha & Heq) Hns].
    simpl. rewrite H1. split; [|done].
    exists (String c1 "" +:+ a). split; [by constructor|].
    simpl. f_equal. exact Heq. }
  destruct r1 as [|c2 r2]; [done|]. simpl in Hs, Hn.
  destruct (is_space2 c1 c2) eqn:H2.
  { destruct (IH r2 ltac:(lia)) as [(a & Ha & Heq) Hns].
    simpl. rewrite H1, H2. split; [|done].
    exists (String c1 (String c2 "") +:+ a). split; [by constructor|].
    simpl. do 2 f_equal. exact Heq. }
  destruct r2 as [|c3 r3]; [done|]. simpl in Hs, Hn.
  destruct (IH r3 ltac:(lia)) as [(a & Ha & Heq) Hns].
  simpl. rewrite H1, H2, Hs. split; [|done].
  exists (String c1 (String c2 (String c3 "")) +:+ a). split; [by constructor|].
  simpl. do 3 f_equal. exact Heq.
Qed.

Lemma trim_end_cons c s :
  trim_end (String c s)
  = if is_space (String c (trim_end s)) then "" else String c (trim_end s).
Proof. reflexivity. Qed.

Lemma is_space_nonempty ws : is_space ws = true → ws ≠ "".
Proof. by destruct ws. Qed.

Lemma append_nil_inv r ws : r +:+ ws = "" → ws = "".
Proof. by destruct r. Qed.

Lemma trim_end_split s : ∃ b, blank b ∧ s = trim_end s +:+ b.
Proof.
  induction s as [|c s (b & Hb & IH)].
  - exists "". split; [constructor|done].
  - rewrite trim_end_cons.
    destruct (is_space (String c (trim_end s))) eqn:Hsp.
    + exists (String c (trim_end s) +:+ b). split; [by constructor|].
      simpl. f_equal. exact IH.
    + exists b. split; [done|]. simpl. f_equal. exact IH.
Qed.

Lemma trim_end_last s r ws : is_space ws = true → trim_end s ≠ r +:+ ws.
Proof.
  intros Hws. revert r. induction s as [|c s IH]; intros r.
  - simpl. intros H. symmetry in H. apply append_nil_inv in H.
    by apply is_space_nonempty in Hws.
  - rewrite trim_end_cons.
    destruct (is_space (String c (trim_end s))) eqn:Hsp.
    + intros H. symmetry in H. apply append_nil_inv in H.
      by apply is_space_nonempty in Hws.
    + destruct r as [|x r]; simpl.
      * intros H. rewrite <- H in Hws. congruence.
      * intros [= _ H]. by apply (IH r).
Qed.

Lemma trim_end_fixed s :
  (∀ r ws, is_space ws = true → s ≠ r +:+ ws) → trim_end s = s.
Proof.
  induction s as [|c s IH]; intros Hs; [done|].
  rewrite trim_end_cons, IH.
  - destruct (is_space (String c s)) eqn:Hsp; [|done].
    by destruct (Hs "" (String c s) Hsp).
  - intros r ws Hws ->. by apply (Hs (String c r) ws Hws).
Qed.

Lemma blank_app a b : blank a → blank b → blank (a +:+ b).
Proof.
  induction 1 as [|ws s Hws Hs IH]; intros Hb; [done|].
  rewrite append_assoc. constructor; auto.
Qed.

Lemma trim_start_blank s : blank s → trim_start s = "".
Proof.
  induction 1 as [|ws s Hws Hs IH]; [done|]. by rewrite trim_start_space.
Qed.

Lemma starts_with_space_prefix s b :
  starts_with_space s = true → starts_with_space (s +:+ b) = true.
Proof.
  destruct s as [|c1 [|c2 [|c3 r]]]; simpl; try done.
  - rewrite orb_false_r. by intros ->.
  - rewrite orb_false_r. intros [H | H]%orb_true_iff; rewrite H; [done|].
    destruct b; simpl; by rewrite ?orb_true_r.
Qed.

End TrimFacts.

(** X8. What [trim] leaves of a key.  The input is the trimmed key with
    white space before and after it and nothing else, white space being
    the code points that [String.prototype.trim] strips, U+00A0 and U+3000
    among them; the trimmed key neither starts nor ends with a white space
    code point; trimming again changes nothing; and the trimmed key is
    empty exactly when the input is white space throughout. *)
Theorem trim_spec (s : string) :
  (∃ a b, blank a ∧ blank b ∧ s = a +:+ KeyEntry.trim s +:+ b)
  ∧ (∀ ws r, KeyEntry.is_space ws = true → KeyEntry.trim s ≠ ws +:+ r)
  ∧ (∀ ws r, KeyEntry.is_space ws = true → KeyEntry.trim s ≠ r +:+ ws)
  ∧ KeyEntry.trim (KeyEntry.trim s) = KeyEntry.trim s
  ∧ (KeyEntry.trim s = "" ↔ blank s).
Proof.
  unfold KeyEntry.trim.
  destruct (trim_start_split_fuel (String.length s) s (le_n _))
    as [(a & Ha & Hs) Hns].
  destruct (trim_end_split (KeyEntry.trim_start s)) as (b & Hb & Ht).
  assert (Hhead : KeyEntry.starts_with_space
                    (KeyEntry.trim_end (KeyEntry.trim_start s)) = false).
  { apply not_true_is_false. intros Hsp.
    apply (starts_with_space_prefix _ b) in Hsp. congruence. }
  split_and!.
  - exists a, b. split_and!; [done|done|]. by rewrite <- Ht.
  - intros ws r Hws Heq.
    rewrite Heq, starts_with_space_app in Hhead by done. done.
  - intros ws r Hws. by apply trim_end_last.
  - rewrite (trim_start_fixed _ Hhead). apply trim_end_fixed.
    intros r ws Hws. by apply trim_end_last.
  - split.
    + intros He. rewrite He in Ht. rewrite Hs, Ht. by apply blank_app.
    + intros Hbl. by rewrite trim_start_blank.
Qed.

Lemma trim_spec_witness :
  KeyEntry.trim (NBSP +:+ " EXAD-12 ab " +:+ IDEOGRAPHIC_SPACE) = "EXAD-12 ab"
  ∧ KeyEntry.trim (NBSP +:+ NBSP) = ""
  ∧ blank (NBSP +:+ NBSP).
Proof.
  split_and!; [reflexivity|reflexivity|].
  apply (proj1 (proj2 (proj2 (proj2 (proj2 (trim_spec (NBSP +:+ NBSP))))))).
  reflexivity.
Defined.

(** ** The progress panel and the other handlers of the sync panel *)

Section PanelFacts.
Import Tauri SyncPanel SyncPanelUI.

Implicit Types (w : World).

Lemma view_progress w p :
  view w = ProgressView p ↔ progress (local w) = Some p ∧ isSyncing (local w) = true.
Proof.
  unfold view. destruct (progress (local w)) as [q|], (isSyncing (local w));
    destruct (mode (local w)) as [[]|]; split; try done;
    try (by intros [= ->]); try (by intros [[= ->] _]); by intros [? ?].
Qed.

Lemma step_start_upload w l :
  selectedSourceFolders (store w) = l → l ≠ [] →
  step w (ClickStartUpload (Resolved ()))
  = commit w (apply_effect w (SetIsSyncing true)).
Proof.
  intros Hl Hne. unfold step. simpl. unfold handleStartUpload. rewrite Hl.
  destruct l; [done|]. reflexivity.
Qed.

Lemma commit_fields w w' :
  mode (local (commit w w')) = mode (local w')
  ∧ progress (local (commit w w')) = progress (local w')
  ∧ isSyncing (local (commit w w')) = isSyncing (local w')
  ∧ isLoading (local (commit w w')) = isLoading (local w')
  ∧ showDeleteConfirm (local (commit w w')) = showDeleteConfirm (local w')
  ∧ isDeleting (local (commit w w')) = isDeleting (local w')
  ∧ deleteResult (local (commit w w')) = deleteResult (local w')
  ∧ store (commit w w') = store w'.
Proof. unfold commit. by destruct (Bool.eqb _ _). Qed.

Lemma commit_same w w' :
  isSyncing (local w') = isSyncing (local w) → commit w w' = w'.
Proof. intros H. unfold commit. by rewrite H, eqb_reflx. Qed.

End PanelFacts.

(** X10. The buttons of the progress panel.  For every status there is a
    button bound to [onCancel].  The only button is Close exactly when the
    status is one that ends polling; Resume is offered exactly when the
    status is [Paused], and Pause for [Idle], [Scanning] and [Syncing].
    Every button sends a command to the back end when clicked: Resume
    sends [resume_sync], Pause [pause_sync], and Cancel and Close both
    send [cancel_sync]. *)
Theorem progress_controls (s : SyncStatus) :
  (∃ b, b ∈ Progress.controls s ∧ Progress.onClick b = Progress.onCancel)
  ∧ (Progress.controls s = [Progress.CloseButton] ↔ SyncPanel.is_terminal s = true)
  ∧ (Progress.ResumeButton ∈ Progress.controls s ↔ s = Paused)
  ∧ (Progress.PauseButton ∈ Progress.controls s
       ↔ s = Idle ∨ s = Scanning ∨ s = Syncing)
  ∧ (∀ (b : Progress.Button) (o : Tauri.Outcome unit),
       SyncPanel.invoked (SyncPanelUI.callback (Progress.onClick b) o)
       = [match b with
          | Progress.ResumeButton => Tauri.resume_sync
          | Progress.PauseButton => Tauri.pause_sync
          | Progress.CancelButton | Progress.CloseButton => Tauri.cancel_sync
          end]).
Proof.
  split_and!.
  - destruct s; simpl;
      first [ exists Progress.CancelButton; split; [|done];
              apply list_elem_of_further, list_elem_of_here
            | exists Progress.CloseButton; split; [|done]; apply list_elem_of_here ].
  - destruct s; simpl; split; done.
  - destruct s; simpl; split; intros H; try done; try (by elem_cases H).
    apply list_elem_of_here.
  - destruct s; simpl; split; intros H; try (by elem_cases H);
      try (by destruct H as [?|[?|?]]); try apply list_elem_of_here; eauto.
  - intros b o. destruct b; try done; by destruct o.
Qed.

Lemma progress_controls_witness :
  Progress.controls (Error "disk full") = [Progress.CloseButton]
  ∧ Progress.controls Paused = [Progress.ResumeButton; Progress.CancelButton].
Proof.
  split; [|reflexivity].
  apply (proj1 (proj2 (progress_controls (Error "disk full")))). reflexivity.
Defined.

(** X11. The snapshot that ends a sync is stored but not shown.  While
    syncing, when a tick reads a snapshot whose status is [Completed] or an
    [Error], the panel keeps the snapshot and leaves the progress view in
    the same render, for the screen of the current mode; the progress view
    is rendered only while [isSyncing] holds. *)
Theorem terminal_snapshot_not_shown (w : SyncPanel.World) (p : SyncProgress) :
  SyncPanel.polling_consistent w →
  SyncPanel.isSyncing (SyncPanel.local w) = true →
  SyncPanel.is_terminal (status p) = true →
  let w' := SyncPanel.step w (SyncPanel.Tick (Tauri.Resolved p)) in
  SyncPanel.progress (SyncPanel.local w') = Some p
  ∧ (∀ q, SyncPanelUI.view w' ≠ SyncPanelUI.ProgressView q)
  ∧ SyncPanelUI.view w'
    = match SyncPanel.mode (SyncPanel.local w) with
      | None => SyncPanelUI.ModeSelection
      | Some SyncPanel.upload => SyncPanelUI.UploadView
      | Some SyncPanel.download => SyncPanelUI.DownloadView
      end.
Proof.
  intros Hc Hs Ht w'.
  assert (Hint : SyncPanel.interval (SyncPanel.local w) ≠ None).
  { apply consistent_syncing in Hc as [Hc _]. by rewrite (proj2 Hc Hs). }
  assert (Hw' : w' = SyncPanel.commit w
            (SyncPanel.apply_effect
               (SyncPanel.apply_effect w (SyncPanel.SetProgress (Some p)))
               (SyncPanel.SetIsSyncing false))).
  { subst w'. unfold SyncPanel.step. by rewrite tick_resolved, Ht. }
  destruct (commit_fields w
              (SyncPanel.apply_effect
                 (SyncPanel.apply_effect w (SyncPanel.SetProgress (Some p)))
                 (SyncPanel.SetIsSyncing false)))
    as (Hm & Hp & Hsync & _).
  rewrite <- Hw' in Hm, Hp, Hsync. simpl in Hm, Hp, Hsync.
  split_and!.
  - done.
  - intros q [_ Hq]%view_progress. congruence.
  - unfold SyncPanelUI.view. by rewrite Hp, Hsync, Hm.
Qed.

Lemma terminal_snapshot_not_shown_witness :
  let w := SyncPanel.steps (SyncPanel.mount Store.initialState)
             [SyncPanel.ClickMode SyncPanel.upload;
              SyncPanel.FoldersPicked ["/a"];
              SyncPanel.ClickStartUpload (Tauri.Resolved ())] in
  let p := Engine.with_status (Error "disk full") Engine.idle_progress in
  let w' := SyncPanel.step w (SyncPanel.Tick (Tauri.Resolved p)) in
  SyncPanel.progress (SyncPanel.local w') = Some p
  ∧ SyncPanelUI.view w' = SyncPanelUI.UploadView.
Proof.
  intros w p w'.
  destruct (terminal_snapshot_not_shown w p eq_refl eq_refl eq_refl) as (Hp & _ & Hv).
  split; [exact Hp|exact Hv].
Defined.

(** X12. Starting again shows the old snapshot.  The start handlers do not
    clear the snapshot of the panel, so when an upload is started while a
    snapshot of an earlier sync is still held, the progress view comes up
    at once with that snapshot. *)
Theorem restart_shows_old_snapshot (w : SyncPanel.World) (p : SyncProgress) :
  SyncPanel.progress (SyncPanel.local w) = Some p →
  selectedSourceFolders (SyncPanel.store w) ≠ [] →
  SyncPanelUI.view (SyncPanel.step w (SyncPanel.ClickStartUpload (Tauri.Resolved ())))
  = SyncPanelUI.ProgressView p.
Proof.
  intros Hp Hne. rewrite (step_start_upload w _ eq_refl Hne).
  apply view_progress.
  destruct (commit_fields w (SyncPanel.apply_effect w (SyncPanel.SetIsSyncing true)))
    as (_ & -> & -> & _).
  done.
Qed.

Lemma restart_shows_old_snapshot_witness :
  let p := Engine.with_status Completed Engine.idle_progress in
  let w := SyncPanel.steps (SyncPanel.mount Store.initialState)
             [SyncPanel.ClickMode SyncPanel.upload;
              SyncPanel.FoldersPicked ["/a"];
              SyncPanel.ClickStartUpload (Tauri.Resolved ());
              SyncPanel.Tick (Tauri.Resolved p)] in
  SyncPanelUI.view w = SyncPanelUI.UploadView
  ∧ SyncPanelUI.view (SyncPanel.step w (SyncPanel.ClickStartUpload (Tauri.Resolved ())))
    = SyncPanelUI.ProgressView p.
Proof.
  intros p w. split; [reflexivity|].
  apply (restart_shows_old_snapshot w p); [reflexivity|discriminate].
Defined.

(** X13. Nothing stops a second start.  With no snapshot held, after a
    click on Start Upload the panel still shows the upload screen with the
    start button enabled until the first tick, and a second click sends
    [start_upload] again with the same folders. *)
Theorem start_twice (w : SyncPanel.World) :
  SyncPanel.progress (SyncPanel.local w) = None →
  SyncPanel.mode (SyncPanel.local w) = Some SyncPanel.upload →
  selectedSourceFolders (SyncPanel.store w) ≠ [] →
  let click := SyncPanel.ClickStartUpload (Tauri.Resolved ()) in
  let w' := SyncPanel.step w click in
  SyncPanelUI.view w' = SyncPanelUI.UploadView
  ∧ SyncPanel.startUpload_disabled (selectedSourceFolders (SyncPanel.store w')) = false
  ∧ SyncPanel.trace w [click; click]
    = [Tauri.start_upload (selectedSourceFolders (SyncPanel.store w));
       Tauri.start_upload (selectedSourceFolders (SyncPanel.store w))].
Proof.
  intros Hp Hm Hne click w'.
  assert (Hw' : w' = SyncPanel.commit w (SyncPanel.apply_effect w (SyncPanel.SetIsSyncing true)))
    by apply (step_start_upload w _ eq_refl Hne).
  destruct (commit_fields w (SyncPanel.apply_effect w (SyncPanel.SetIsSyncing true)))
    as (Hm' & Hp' & _ & _ & _ & _ & _ & Hst).
  rewrite <- Hw' in Hm', Hp', Hst. simpl in Hm', Hp', Hst.
  split_and!.
  - unfold SyncPanelUI.view. by rewrite Hp', Hp, Hm', Hm.
  - rewrite Hst. by destruct (selectedSourceFolders (SyncPanel.store w)).
  - simpl. fold click. fold w'. rewrite Hst.
    unfold SyncPanel.handleStartUpload.
    by destruct (selectedSourceFolders (SyncPanel.store w)).
Qed.

Lemma start_twice_witness :
  let w := SyncPanel.steps (SyncPanel.mount Store.initialState)
             [SyncPanel.ClickMode SyncPanel.upload; SyncPanel.FoldersPicked ["/a"]] in
  let click := SyncPanel.ClickStartUpload (Tauri.Resolved ()) in
  SyncPanel.trace w [click; click]
  = [Tauri.start_upload ["/a"]; Tauri.start_upload ["/a"]].
Proof.
  intros w click.
  apply (proj2 (proj2 (start_twice w eq_refl eq_refl ltac:(discriminate)))).
Defined.

(** X14. Deleting all cloud files.  The handler sends [delete_all_files]
    once.  When the command resolves with a count, the count is recorded
    as a success and the confirmation dialog is closed; when it is
    rejected, the message of the error, or ["Delete failed"], is recorded
    and the dialog stays as it was.  Either way the deleting flag is off
    at the end, and neither the store nor the sync state is touched. *)
Theorem delete_all_outcome (o : Tauri.Outcome N) (w : SyncPanel.World) :
  let w' := SyncPanelUI.perform (SyncPanelUI.handleDeleteAll o) w in
  SyncPanel.invoked (SyncPanelUI.handleDeleteAll o) = [Tauri.delete_all_files]
  ∧ SyncPanel.isDeleting (SyncPanel.local w') = false
  ∧ SyncPanel.store w' = SyncPanel.store w
  ∧ SyncPanel.isSyncing (SyncPanel.local w') = SyncPanel.isSyncing (SyncPanel.local w)
  ∧ SyncPanel.interval (SyncPanel.local w') = SyncPanel.interval (SyncPanel.local w)
  ∧ SyncPanel.progress (SyncPanel.local w') = SyncPanel.progress (SyncPanel.local w)
  ∧ (∀ n, o = Tauri.Resolved n →
       SyncPanel.deleteResult (SyncPanel.local w')
       = Some {| SyncPanel.success := true; SyncPanel.count := Some n;
                 SyncPanel.delete_error := None |}
       ∧ SyncPanel.showDeleteConfirm (SyncPanel.local w') = false)
  ∧ ((∀ n, o ≠ Tauri.Resolved n) →
       SyncPanel.deleteResult (SyncPanel.local w')
       = Some {| SyncPanel.success := false; SyncPanel.count := None;
                 SyncPanel.delete_error :=
                   Some (Tauri.error_message o "Delete failed") |}
       ∧ SyncPanel.showDeleteConfirm (SyncPanel.local w')
         = SyncPanel.showDeleteConfirm (SyncPanel.local w)).
Proof.
  intros w'. subst w'. unfold SyncPanelUI.perform.
  destruct o as [n| |]; rewrite commit_same by reflexivity; simpl;
    split_and!; try done.
  all: try (by intros ? [= <-]).
  all: try (by intros ? [=]).
  all: try (intros H; by destruct (H n)).
Qed.

Lemma delete_all_outcome_witness :
  let w := SyncPanel.steps (SyncPanel.mount Store.initialState) [] in
  let w' := SyncPanelUI.perform (SyncPanelUI.handleDeleteAll (Tauri.RejectedError "timeout"))
              (SyncPanel.run [SyncPanel.SetShowDeleteConfirm true] w) in
  SyncPanel.deleteResult (SyncPanel.local w')
  = Some {| SyncPanel.success := false; SyncPanel.count := None;
            SyncPanel.delete_error := Some "timeout" |}
  ∧ SyncPanel.showDeleteConfirm (SyncPanel.local w') = true.
Proof.
  intros w w'.
  destruct (delete_all_outcome (Tauri.RejectedError "timeout")
              (SyncPanel.run [SyncPanel.SetShowDeleteConfirm true] w))
    as (_ & _ & _ & _ & _ & _ & _ & Hrej).
  destruct Hrej as [Hres Hdlg]; [by intros n|].
  split; [exact Hres|exact Hdlg].
Defined.

(** X15. Signing out.  When [logout] resolves the handler clears the user
    and shows the key-entry screen, and that is all it changes in the
    store: the selected source folders, the selected target and cloud
    folder and the listed cloud folders of the user who signed out stay
    in the store.  When [logout] is rejected nothing changes. *)
Theorem logout_outcome (o : Tauri.Outcome unit) (w : SyncPanel.World) :
  let w' := SyncPanelUI.perform (SyncPanel.handleLogout o) w in
  SyncPanel.invoked (SyncPanel.handleLogout o) = [Tauri.logout]
  ∧ (∀ u, o = Tauri.Resolved u →
       SyncPanel.store w'
       = Store.setScreen key_entry (Store.setUser None (SyncPanel.store w))
       ∧ selectedSourceFolders (SyncPanel.store w')
         = selectedSourceFolders (SyncPanel.store w)
       ∧ selectedTargetFolder (SyncPanel.store w')
         = selectedTargetFolder (SyncPanel.store w)
       ∧ selectedCloudFolder (SyncPanel.store w')
         = selectedCloudFolder (SyncPanel.store w)
       ∧ cloudFolders (SyncPanel.store w') = cloudFolders (SyncPanel.store w))
  ∧ ((∀ u, o ≠ Tauri.Resolved u) → w' = w).
Proof.
  intros w'. subst w'. unfold SyncPanelUI.perform.
  destruct o as [u| |]; rewrite commit_same by reflexivity; simpl;
    (split_and!; try done; try (intros H; by destruct (H u))).
Qed.

Lemma logout_outcome_witness :
  let w := SyncPanel.steps (SyncPanel.mount Store.initialState)
             [SyncPanel.FoldersPicked ["/a"; "/b"]] in
  selectedSourceFolders
    (SyncPanel.store (SyncPanelUI.perform (SyncPanel.handleLogout (Tauri.Resolved ())) w))
  = ["/a"; "/b"]
  ∧ SyncPanelUI.perform (SyncPanel.handleLogout Tauri.RejectedOther) w = w.
Proof.
  intros w.
  destruct (logout_outcome (Tauri.Resolved ()) w) as (_ & Hok & _).
  destruct (Hok () eq_refl) as (_ & Hsel & _).
  destruct (logout_outcome Tauri.RejectedOther w) as (_ & _ & Hrej).
  split; [exact Hsel|]. apply Hrej. by intros u.
Defined.

(** X16. Going back does not stop a sync.  The back button clears the
    mode, the selections and the snapshot, sends no command, and leaves
    [isSyncing] and the polling interval as they are. *)
Theorem back_keeps_syncing (w : SyncPanel.World) :
  let w' := SyncPanel.step w SyncPanel.ClickBack in
  SyncPanel.trace w [SyncPanel.ClickBack] = []
  ∧ SyncPanel.isSyncing (SyncPanel.local w') = SyncPanel.isSyncing (SyncPanel.local w)
  ∧ SyncPanel.interval (SyncPanel.local w') = SyncPanel.interval (SyncPanel.local w)
  ∧ SyncPanel.mode (SyncPanel.local w') = None
  ∧ SyncPanel.progress (SyncPanel.local w') = None
  ∧ selectedSourceFolders (SyncPanel.store w') = []
  ∧ selectedTargetFolder (SyncPanel.store w') = None
  ∧ selectedCloudFolder (SyncPanel.store w') = None
  ∧ SyncPanelUI.view w' = SyncPanelUI.ModeSelection.
Proof.
  intros w'. subst w'. unfold SyncPanel.step.
  rewrite commit_same by reflexivity. done.
Qed.

(** X17. Refreshing the cloud folders.  The handler sends
    [list_cloud_folders] once and the loading flag is off at the end.  A
    resolved listing replaces the listed folders; a rejected one leaves the
    store as it was.  In no case is the selected cloud folder changed, so
    a later Start Download still sends the folder selected before the
    refresh, whether or not the new listing holds it. *)
Theorem refresh_keeps_selection (o : Tauri.Outcome (list CloudFolder))
    (w : SyncPanel.World) :
  let w' := SyncPanelUI.perform (SyncPanelUI.loadCloudFolders o) w in
  SyncPanel.invoked (SyncPanelUI.loadCloudFolders o) = [Tauri.list_cloud_folders]
  ∧ SyncPanel.isLoading (SyncPanel.local w') = false
  ∧ (∀ folders, o = Tauri.Resolved folders →
       cloudFolders (SyncPanel.store w') = folders)
  ∧ ((∀ folders, o ≠ Tauri.Resolved folders) → SyncPanel.store w' = SyncPanel.store w)
  ∧ selectedCloudFolder (SyncPanel.store w') = selectedCloudFolder (SyncPanel.store w)
  ∧ (∀ cf tp, selectedCloudFolder (SyncPanel.store w) = Some cf →
       selectedTargetFolder (SyncPanel.store w) = Some tp →
       cf ≠ "" → tp ≠ "" →
       SyncPanel.trace w' [SyncPanel.ClickStartDownload (Tauri.Resolved ())]
       = [Tauri.start_download cf tp]).
Proof.
  intros w'. subst w'. unfold SyncPanelUI.perform.
  destruct o as [folders| |]; rewrite commit_same by reflexivity; simpl;
    (split_and!; try done;
     try (by intros ? [= <-]); try (intros H; by destruct (H folders));
     intros cf tp -> -> Hcf Htp; unfold SyncPanel.handleStartDownload; simpl;
     destruct (String.eqb_spec cf ""); [done|];
     destruct (String.eqb_spec tp ""); done).
Qed.

Lemma refresh_keeps_selection_witness :
  let w := SyncPanel.steps (SyncPanel.mount Store.initialState)
             [SyncPanel.ClickMode SyncPanel.download;
              SyncPanel.CloudFolderClicked "photos";
              SyncPanel.TargetPicked (Some "/restore")] in
  let w' := SyncPanelUI.perform (SyncPanelUI.loadCloudFolders (Tauri.Resolved [])) w in
  cloudFolders (SyncPanel.store w') = []
  ∧ SyncPanel.trace w' [SyncPanel.ClickStartDownload (Tauri.Resolved ())]
    = [Tauri.start_download "photos" "/restore"].
Proof.
  intros w w'.
  destruct (refresh_keeps_selection (Tauri.Resolved []) w) as (_ & _ & Hl & _ & _ & Hd).
  split; [by apply Hl|].
  apply Hd; [reflexivity|reflexivity|discriminate|discriminate].
Defined.

(** X18. The progress view is never left without polling.  Over every run
    of the panel from its first render, whenever the progress view is
    shown a polling interval of 500 ms is pending. *)
Theorem progress_view_is_polled (st : AppState) (evs : list SyncPanel.Event)
    (p : SyncProgress) :
  let w := SyncPanel.steps (SyncPanel.mount st) evs in
  SyncPanelUI.view w = SyncPanelUI.ProgressView p →
  SyncPanel.interval (SyncPanel.local w) = Some 500%N.
Proof.
  intros w [_ Hs]%view_progress.
  assert (Hc : SyncPanel.polling_consistent w)
    by apply steps_consistent, mount_consistent.
  by apply consistent_syncing.
Qed.

Lemma progress_view_is_polled_witness :
  let p := Engine.with_status Syncing Engine.idle_progress in
  let evs := [SyncPanel.FoldersPicked ["/a"];
              SyncPanel.ClickStartUpload (Tauri.Resolved ());
              SyncPanel.Tick (Tauri.Resolved p)] in
  let w := SyncPanel.steps (SyncPanel.mount Store.initialState) evs in
  SyncPanelUI.view w = SyncPanelUI.ProgressView p
  ∧ SyncPanel.interval (SyncPanel.local w) = Some 500%N.
Proof.
  intros p evs w. split; [reflexivity|].
  apply (progress_view_is_polled Store.initialState evs p). reflexivity.
Defined.
